(** * Session coordination and signaling relay of the podcast meeting room

    A shallow embedding of the Socket.IO relay of [server/server.js] (the
    [io.on('connection')] handlers) and of the WebRTC client of the two
    [MeetingRoom] components, with the properties of the specification
    stated over them. *)

From Stdlib Require Import ZArith Lia Ascii String.
From stdpp Require Import base gmap strings list fin_maps sets.

Local Open Scope string_scope.

(** ** JavaScript values

    The payloads of the wire protocol are untyped JavaScript values; the
    relay applies [||] defaults to them, so truthiness is part of the model.
    Numbers are restricted to integers, which is all the protocol carries. *)

#[warnings="-register-all"] Inductive jsval : Type :=
| JUndefined
| JNull
| JBool (b : bool)
| JNum (z : Z)
| JStr (s : string)
| JObj (fields : list (string * jsval)).

Definition truthy (v : jsval) : bool :=
  match v with
  | JUndefined | JNull => false
  | JBool b => b
  | JNum z => negb (Z.eqb z 0)
  | JStr s => negb (bool_decide (s = ""))
  | JObj _ => true
  end.

(** [a || b] *)
Definition js_or (a b : jsval) : jsval := if truthy a then a else b.

(** [a !== b] on values that crossed the wire: primitives compare by value,
    a deserialised object is identical to no other value. *)
Definition js_strict_eq (a b : jsval) : bool :=
  match a, b with
  | JUndefined, JUndefined | JNull, JNull => true
  | JBool x, JBool y => bool_decide (x = y)
  | JNum x, JNum y => Z.eqb x y
  | JStr x, JStr y => bool_decide (x = y)
  | _, _ => false
  end.

(** A JavaScript [Set] of strings iterates in insertion order and holds no
    duplicates. *)
Definition jsset_add (x : string) (l : list string) : list string :=
  if bool_decide (x ∈ l) then l else (l ++ [x])%list.

Definition jsset_delete (x : string) (l : list string) : list string :=
  filter (λ y, y ≠ x) l.

(** ** The relay: [server/server.js], [io.on('connection', ...)] *)

Module Relay.

(** The [userInfo] object of a [join-room] message. *)
Record UserInfo : Type := {
  ui_userId : jsval;
  ui_user : jsval;
  ui_audioEnabled : jsval;
  ui_videoEnabled : jsval;
}.

(** The object literal stored by [participants.set] in the join handler;
    [isScreenSharing] is absent until a screen-share handler assigns it. *)
Record Participant : Type := {
  socketId : string;
  userId : jsval;
  user : jsval;
  audioEnabled : jsval;
  videoEnabled : jsval;
  meetingKey : string;
  isScreenSharing : jsval;
}.

(** Events emitted by the relay. *)
Inductive ServerEvent : Type :=
| RoomUsers (roomParticipants : list Participant)
| UserJoined (p : Participant)
| UserLeft (sid : string)
| WebrtcOffer (offer : jsval) (from : string) (uid : jsval)
| WebrtcAnswer (answer : jsval) (from : string)
| WebrtcIceCandidate (candidate : jsval) (from : string)
| ChatMessage (message : jsval) (usr : jsval) (timestamp : string)
| UserStartedScreenShare (uid : jsval) (sid : string)
| UserStoppedScreenShare (uid : jsval) (sid : string)
| RecordingStarted (usr : jsval)
| RecordingStopped (usr : jsval).

(** Messages received from a client socket. *)
Inductive ClientMsg : Type :=
| JoinRoom (key : string) (userInfo : UserInfo)
| LeaveRoom (key : string)
| Offer (key : string) (offer : jsval) (to : string)
| Answer (key : string) (answer : jsval) (to : string)
| IceCandidate (key : string) (candidate : jsval) (to : string)
| Chat (key : string) (message : jsval)
| StartScreenShare (key : string)
| StopScreenShare (key : string)
| StartRecording (key : string)
| StopRecording (key : string).

(** The two module-level maps [rooms] and [participants], and the room
    membership kept by Socket.IO itself ([socket.join] / [socket.leave]):
    [adapter] maps a Socket.IO room name to the sockets in it. Every
    connected socket is a member of the room named by its own id. *)
Record State : Type := {
  rooms : gmap string (list string);
  participants : gmap string Participant;
  adapter : gmap string (gset string);
}.

Definition init : State :=
  {| rooms := ∅; participants := ∅; adapter := ∅ |}.

(** One emission: the event and the sockets it is written to. *)
Record Emission : Type := {
  em_to : gset string;
  em_ev : ServerEvent;
}.

Definition members (s : State) (room : string) : gset string :=
  default ∅ (adapter s !! room).

(** [socket.join(room)] and [socket.leave(room)] *)
Definition sio_join (sid room : string) (s : State) : State :=
  {| rooms := rooms s; participants := participants s;
     adapter := <[room := {[sid]} ∪ members s room]> (adapter s) |}.

Definition sio_leave (sid room : string) (s : State) : State :=
  {| rooms := rooms s; participants := participants s;
     adapter := <[room := members s room ∖ {[sid]}]> (adapter s) |}.

(** [socket.emit(ev)]: to the socket itself. *)
Definition socket_emit (sid : string) (ev : ServerEvent) : Emission :=
  {| em_to := {[sid]}; em_ev := ev |}.

(** [socket.to(room).emit(ev)]: to every socket in [room] except the
    sending socket. *)
Definition socket_to (s : State) (sid room : string) (ev : ServerEvent) : Emission :=
  {| em_to := members s room ∖ {[sid]}; em_ev := ev |}.

(** [io.to(room).emit(ev)]: to every socket in [room]. *)
Definition io_to (s : State) (room : string) (ev : ServerEvent) : Emission :=
  {| em_to := members s room; em_ev := ev |}.

(** A new connection: Socket.IO puts the socket in the room of its own id. *)
Definition connect (sid : string) (s : State) : State := sio_join sid sid s.

(** The removal shared by the leave and disconnect handlers:
    [rooms.get(key).delete(sid)], then the room is dropped when empty. *)
Definition rooms_remove (key sid : string) (r : gmap string (list string))
  : gmap string (list string) :=
  match r !! key with
  | Some set =>
      let set' := jsset_delete sid set in
      if bool_decide (length set' = 0) then delete key r else <[key := set']> r
  | None => r
  end.

Definition mkParticipant (sid key : string) (userInfo : UserInfo) : Participant :=
  {| socketId := sid;
     userId := js_or (ui_userId userInfo) (JStr sid);
     user := js_or (ui_user userInfo) (JObj [("name", JStr "Anonymous")]);
     audioEnabled := js_or (ui_audioEnabled userInfo) (JBool true);
     videoEnabled := js_or (ui_videoEnabled userInfo) (JBool true);
     meetingKey := key;
     isScreenSharing := JUndefined |}.

(** [socket.on('join-room', ...)] *)
Definition join_room (sid key : string) (userInfo : UserInfo) (s : State)
  : State * list Emission :=
  let s1 := sio_join sid key s in
  let parts := <[sid := mkParticipant sid key userInfo]> (participants s1) in
  let rooms1 :=
    if bool_decide (is_Some (rooms s1 !! key)) then rooms s1
    else <[key := []]> (rooms s1) in
  let rooms2 := <[key := jsset_add sid (default [] (rooms1 !! key))]> rooms1 in
  let s2 := {| rooms := rooms2; participants := parts; adapter := adapter s1 |} in
  let roomParticipants :=
    omap (λ id, parts !! id) (default [] (rooms2 !! key)) in
  (s2, [socket_emit sid (RoomUsers roomParticipants);
        socket_to s2 sid key (UserJoined (mkParticipant sid key userInfo))]).

(** [socket.on('leave-room', ...)] *)
Definition leave_room (sid key : string) (s : State) : State * list Emission :=
  let s1 := sio_leave sid key s in
  let s2 := {| rooms := rooms_remove key sid (rooms s1);
               participants := participants s1; adapter := adapter s1 |} in
  ({| rooms := rooms s2; participants := delete sid (participants s2);
      adapter := adapter s2 |},
   [socket_to s2 sid key (UserLeft sid)]).

(** [socket.on('webrtc-offer' | 'webrtc-answer' | 'webrtc-ice-candidate')] *)
Definition webrtc_offer (sid : string) (offer : jsval) (to : string) (s : State)
  : State * list Emission :=
  (s, [socket_to s sid to
         (WebrtcOffer offer sid
            (default JUndefined (userId <$> participants s !! sid)))]).

Definition webrtc_answer (sid : string) (answer : jsval) (to : string) (s : State)
  : State * list Emission :=
  (s, [socket_to s sid to (WebrtcAnswer answer sid)]).

Definition webrtc_ice_candidate (sid : string) (candidate : jsval) (to : string)
  (s : State) : State * list Emission :=
  (s, [socket_to s sid to (WebrtcIceCandidate candidate sid)]).

(** [socket.on('chat-message', ...)]; [now] is [new Date().toISOString()]. *)
Definition chat_message (now : string) (sid key : string) (message : jsval)
  (s : State) : State * list Emission :=
  match participants s !! sid with
  | Some participant =>
      (s, [io_to s key (ChatMessage message (user participant) now)])
  | None => (s, [])
  end.

Definition set_sharing (v : bool) (p : Participant) : Participant :=
  {| socketId := socketId p; userId := userId p; user := user p;
     audioEnabled := audioEnabled p; videoEnabled := videoEnabled p;
     meetingKey := meetingKey p; isScreenSharing := JBool v |}.

(** [socket.on('start-screen-share' | 'stop-screen-share', ...)] *)
Definition start_screen_share (sid key : string) (s : State)
  : State * list Emission :=
  match participants s !! sid with
  | Some participant =>
      let s' := {| rooms := rooms s;
                   participants := <[sid := set_sharing true participant]> (participants s);
                   adapter := adapter s |} in
      (s', [socket_to s' sid key (UserStartedScreenShare (userId participant) sid)])
  | None => (s, [])
  end.

Definition stop_screen_share (sid key : string) (s : State)
  : State * list Emission :=
  match participants s !! sid with
  | Some participant =>
      let s' := {| rooms := rooms s;
                   participants := <[sid := set_sharing false participant]> (participants s);
                   adapter := adapter s |} in
      (s', [socket_to s' sid key (UserStoppedScreenShare (userId participant) sid)])
  | None => (s, [])
  end.

(** [socket.on('start-recording' | 'stop-recording', ...)] *)
Definition start_recording (sid key : string) (s : State) : State * list Emission :=
  match participants s !! sid with
  | Some participant => (s, [io_to s key (RecordingStarted (user participant))])
  | None => (s, [])
  end.

Definition stop_recording (sid key : string) (s : State) : State * list Emission :=
  match participants s !! sid with
  | Some participant => (s, [io_to s key (RecordingStopped (user participant))])
  | None => (s, [])
  end.

(** A closed connection: Socket.IO has taken the socket out of every room
    by the time the ['disconnect'] listener runs. *)
Definition sio_leave_all (sid : string) (s : State) : State :=
  {| rooms := rooms s; participants := participants s;
     adapter := (λ S, S ∖ {[sid]}) <$> adapter s |}.

(** [socket.on('disconnect', ...)] *)
Definition disconnect (sid : string) (s : State) : State * list Emission :=
  let s1 := sio_leave_all sid s in
  let '(s2, out) :=
    match participants s1 !! sid with
    | Some participant =>
        let key := meetingKey participant in
        let s2 := {| rooms := rooms_remove key sid (rooms s1);
                     participants := participants s1; adapter := adapter s1 |} in
        (s2, [socket_to s2 sid key (UserLeft sid)])
    | None => (s1, [])
    end in
  ({| rooms := rooms s2; participants := delete sid (participants s2);
      adapter := adapter s2 |}, out).

(** Dispatch of one client message on socket [sid]. *)
Definition handle (now : string) (sid : string) (m : ClientMsg) (s : State)
  : State * list Emission :=
  match m with
  | JoinRoom key userInfo => join_room sid key userInfo s
  | LeaveRoom key => leave_room sid key s
  | Offer _ offer to => webrtc_offer sid offer to s
  | Answer _ answer to => webrtc_answer sid answer to s
  | IceCandidate _ candidate to => webrtc_ice_candidate sid candidate to s
  | Chat key message => chat_message now sid key message s
  | StartScreenShare key => start_screen_share sid key s
  | StopScreenShare key => stop_screen_share sid key s
  | StartRecording key => start_recording sid key s
  | StopRecording key => stop_recording sid key s
  end.

(** What one socket observes of a list of emissions, in order. *)
Definition observed (c : string) (out : list Emission) : list ServerEvent :=
  em_ev <$> filter (λ e, c ∈ em_to e) out.

(** Transport-level inputs of the relay, and a run over a list of them. *)
Inductive Input : Type :=
| Connect (sid : string)
| Message (sid : string) (m : ClientMsg)
| Disconnect (sid : string).

Definition step (now : string) (i : Input) (s : State) : State * list Emission :=
  match i with
  | Connect sid => (connect sid s, [])
  | Message sid m => handle now sid m s
  | Disconnect sid => disconnect sid s
  end.

Fixpoint run (now : string) (ins : list Input) (s : State) : State * list Emission :=
  match ins with
  | [] => (s, [])
  | i :: ins' =>
      let '(s1, out1) := step now i s in
      let '(s2, out2) := run now ins' s1 in
      (s2, (out1 ++ out2)%list)
  end.

End Relay.

(** ** The client: state shared by the two [MeetingRoom] components

    A listener or callback runs to completion before the next one starts;
    the host calls it awaits ([createOffer], [setLocalDescription],
    [setRemoteDescription], [createAnswer], [addIceCandidate] on a
    connection with a remote description) are taken on the path where they
    succeed, the [catch] branches only log.

    A function of the component reads a state variable at the value it had
    in the render the function belongs to. The handlers of the buttons are
    those of the latest render and see the current value. The socket
    listeners, the timers they arm and the function the effect returns
    belong to the render that ran the effect. *)

Module Client.

Export Relay.

(** A [MediaStreamTrack] and a [MediaStream]. *)
Inductive TrackKind : Type := Audio | Video.

#[global] Instance TrackKind_eq_dec : EqDecision TrackKind.
Proof. solve_decision. Defined.

Record Track : Type := {
  track_id : nat;
  kind : TrackKind;
}.

Definition MediaStream : Type := list Track.

Definition getVideoTracks (stream : MediaStream) : list Track :=
  filter (λ t, kind t = Video) stream.

(** An [RTCPeerConnection] as far as the component drives it: [senders]
    lists the [track] of each sender, [candidates] the arguments of the
    accepted [addIceCandidate] calls in call order. *)
Record PeerConnection : Type := {
  closed : bool;
  senders : list (option Track);
  localDescription : option jsval;
  remoteDescription : option jsval;
  candidates : list jsval;
}.

(** The callbacks handed to [setTimeout]. *)
Inductive Task : Type :=
| TCreatePeerConnection (socketId : string) (isInitiator : bool)
| THandleIceCandidate (candidate : jsval) (from : string).

(** The component state. [heap] holds every [RTCPeerConnection] created so
    far, addressed by allocation number; [peerConnections] is
    [peerConnectionsRef.current], from socket id to connection object.
    [sent] are the messages emitted through [socketService], oldest first,
    and [socket] tells whether [socketService] holds a socket. [stopped]
    and [onended] are the tracks on which [stop()] was called and the
    tracks whose [onended] callback is [stopScreenShare]. *)
Record State : Type := {
  nextPc : nat;
  heap : gmap nat PeerConnection;
  peerConnections : gmap string nat;
  participants : gmap string Participant;
  timers : list (nat * Task);
  clock : nat;
  sent : list ClientMsg;
  socket : bool;
  localStream : option MediaStream;
  isScreenSharing : bool;
  stopped : gset nat;
  onended : gset nat;
}.

Definition set_nextPc (v : nat) (s : State) : State :=
  {| nextPc := v; heap := heap s; peerConnections := peerConnections s;
     participants := participants s; timers := timers s; clock := clock s;
     sent := sent s; socket := socket s; localStream := localStream s;
     isScreenSharing := isScreenSharing s; stopped := stopped s;
     onended := onended s |}.

Definition set_heap (v : gmap nat PeerConnection) (s : State) : State :=
  {| nextPc := nextPc s; heap := v; peerConnections := peerConnections s;
     participants := participants s; timers := timers s; clock := clock s;
     sent := sent s; socket := socket s; localStream := localStream s;
     isScreenSharing := isScreenSharing s; stopped := stopped s;
     onended := onended s |}.

Definition set_peerConnections (v : gmap string nat) (s : State) : State :=
  {| nextPc := nextPc s; heap := heap s; peerConnections := v;
     participants := participants s; timers := timers s; clock := clock s;
     sent := sent s; socket := socket s; localStream := localStream s;
     isScreenSharing := isScreenSharing s; stopped := stopped s;
     onended := onended s |}.

Definition set_participants (v : gmap string Participant) (s : State) : State :=
  {| nextPc := nextPc s; heap := heap s; peerConnections := peerConnections s;
     participants := v; timers := timers s; clock := clock s;
     sent := sent s; socket := socket s; localStream := localStream s;
     isScreenSharing := isScreenSharing s; stopped := stopped s;
     onended := onended s |}.

Definition set_timers (v : list (nat * Task)) (s : State) : State :=
  {| nextPc := nextPc s; heap := heap s; peerConnections := peerConnections s;
     participants := participants s; timers := v; clock := clock s;
     sent := sent s; socket := socket s; localStream := localStream s;
     isScreenSharing := isScreenSharing s; stopped := stopped s;
     onended := onended s |}.

Definition set_clock (v : nat) (s : State) : State :=
  {| nextPc := nextPc s; heap := heap s; peerConnections := peerConnections s;
     participants := participants s; timers := timers s; clock := v;
     sent := sent s; socket := socket s; localStream := localStream s;
     isScreenSharing := isScreenSharing s; stopped := stopped s;
     onended := onended s |}.

Definition set_sent (v : list ClientMsg) (s : State) : State :=
  {| nextPc := nextPc s; heap := heap s; peerConnections := peerConnections s;
     participants := participants s; timers := timers s; clock := clock s;
     sent := v; socket := socket s; localStream := localStream s;
     isScreenSharing := isScreenSharing s; stopped := stopped s;
     onended := onended s |}.

Definition set_socket (v : bool) (s : State) : State :=
  {| nextPc := nextPc s; heap := heap s; peerConnections := peerConnections s;
     participants := participants s; timers := timers s; clock := clock s;
     sent := sent s; socket := v; localStream := localStream s;
     isScreenSharing := isScreenSharing s; stopped := stopped s;
     onended := onended s |}.

Definition set_localStream (v : option MediaStream) (s : State) : State :=
  {| nextPc := nextPc s; heap := heap s; peerConnections := peerConnections s;
     participants := participants s; timers := timers s; clock := clock s;
     sent := sent s; socket := socket s; localStream := v;
     isScreenSharing := isScreenSharing s; stopped := stopped s;
     onended := onended s |}.

Definition set_isScreenSharing (v : bool) (s : State) : State :=
  {| nextPc := nextPc s; heap := heap s; peerConnections := peerConnections s;
     participants := participants s; timers := timers s; clock := clock s;
     sent := sent s; socket := socket s; localStream := localStream s;
     isScreenSharing := v; stopped := stopped s;
     onended := onended s |}.

Definition set_stopped (v : gset nat) (s : State) : State :=
  {| nextPc := nextPc s; heap := heap s; peerConnections := peerConnections s;
     participants := participants s; timers := timers s; clock := clock s;
     sent := sent s; socket := socket s; localStream := localStream s;
     isScreenSharing := isScreenSharing s; stopped := v;
     onended := onended s |}.

Definition set_onended (v : gset nat) (s : State) : State :=
  {| nextPc := nextPc s; heap := heap s; peerConnections := peerConnections s;
     participants := participants s; timers := timers s; clock := clock s;
     sent := sent s; socket := socket s; localStream := localStream s;
     isScreenSharing := isScreenSharing s; stopped := stopped s;
     onended := v |}.

(** The component after [socketService.connect()], before any event;
    [stream] is what [initializeMedia] has stored with [setLocalStream]. *)
Definition mounted (stream : option MediaStream) : State :=
  {| nextPc := 0; heap := ∅; peerConnections := ∅; participants := ∅;
     timers := []; clock := 0; sent := []; socket := true;
     localStream := stream; isScreenSharing := false;
     stopped := ∅; onended := ∅ |}.

(** [this.socket?.emit(...)] of [SocketService]. *)
Definition emit (m : ClientMsg) (s : State) : State :=
  if socket s then set_sent (sent s ++ [m])%list s else s.

(** [setTimeout(task, delay)] *)
Definition setTimeout (task : Task) (delay : nat) (s : State) : State :=
  set_timers (timers s ++ [(clock s + delay, task)])%list s.

(** A method call on the connection object [pc]. *)
Definition update_pc (pc : nat) (f : PeerConnection → PeerConnection)
  (s : State) : State :=
  set_heap (alter f pc (heap s)) s.

(** The value of [localStream] in the render that ran the effect of
    [useEffect(..., [meetingKey, user])]: the initial value of
    [useState<MediaStream | null>(null)]. [initializeMeeting] runs in that
    render, so the listeners registered by [setupSocketListeners] call the
    [createPeerConnection] of that render, and the [cleanup] the effect
    returns is that render's too: both read this value. [setLocalStream]
    changes what later renders see, not this one. *)
Definition mount_localStream : option MediaStream := None.

(** [new RTCPeerConnection(rtcConfiguration)], then [pc.addTrack] for
    every track of [localStream], if there is one; [stream] is the value of
    [localStream] that the caller sees. *)
Definition newPeerConnection (stream : option MediaStream) : PeerConnection :=
  {| closed := false;
     senders := Some <$> default [] stream;
     localDescription := None; remoteDescription := None;
     candidates := [] |}.

Definition setLocalDescription (d : jsval) (p : PeerConnection) : PeerConnection :=
  {| closed := closed p; senders := senders p;
     localDescription := Some d; remoteDescription := remoteDescription p;
     candidates := candidates p |}.

Definition setRemoteDescription (d : jsval) (p : PeerConnection) : PeerConnection :=
  {| closed := closed p; senders := senders p;
     localDescription := localDescription p; remoteDescription := Some d;
     candidates := candidates p |}.

Definition addIceCandidate (c : jsval) (p : PeerConnection) : PeerConnection :=
  {| closed := closed p; senders := senders p;
     localDescription := localDescription p;
     remoteDescription := remoteDescription p;
     candidates := (candidates p ++ [c])%list |}.

Definition close (p : PeerConnection) : PeerConnection :=
  {| closed := true; senders := senders p;
     localDescription := localDescription p;
     remoteDescription := remoteDescription p;
     candidates := candidates p |}.

(** [pc.addIceCandidate(candidate)] as the host answers it when the caller
    has not looked at [pc.remoteDescription]: on a connection without a
    remote description the promise rejects with [InvalidStateError] and
    the candidate is not applied. *)
Definition addIceCandidate_unchecked (c : jsval) (p : PeerConnection)
  : PeerConnection :=
  match remoteDescription p with
  | Some _ => addIceCandidate c p
  | None => p
  end.

(** The session descriptions made by the browser are opaque to the
    component; a description records its type and the connection object
    that produced it. *)
Definition createOffer (pc : nat) : jsval :=
  JObj [("type", JStr "offer"); ("sdp", JNum (Z.of_nat pc))].

Definition createAnswer (pc : nat) : jsval :=
  JObj [("type", JStr "answer"); ("sdp", JNum (Z.of_nat pc))].

(** [pc.getSenders().find(s => s.track && s.track.kind === 'video')]
    followed by [sender.replaceTrack(videoTrack)] on the sender found. *)
Fixpoint replace_first_video (videoTrack : option Track)
  (l : list (option Track)) : list (option Track) :=
  match l with
  | [] => []
  | Some t :: l' =>
      if decide (kind t = Video) then videoTrack :: l'
      else Some t :: replace_first_video videoTrack l'
  | None :: l' => None :: replace_first_video videoTrack l'
  end.

(** [replaceTrack] on a closed connection rejects and changes nothing; the
    promise is not awaited. *)
Definition replaceVideo (videoTrack : option Track) (p : PeerConnection)
  : PeerConnection :=
  if closed p then p
  else {| closed := closed p;
          senders := replace_first_video videoTrack (senders p);
          localDescription := localDescription p;
          remoteDescription := remoteDescription p;
          candidates := candidates p |}.

(** [peerConnectionsRef.current.forEach(pc => body(pc))] for a body that
    is a method call on the connection. *)
Definition forEach_pc (f : PeerConnection → PeerConnection) (s : State) : State :=
  foldl (λ st kv, update_pc kv.2 f st) s (map_to_list (peerConnections s)).

Section Component.

(** The route parameter of the component. *)
Variable meetingKey : string.

(** The branch of [toggleScreenShare] taken when [isScreenSharing] is
    false; [display] is what [getDisplayMedia] resolves to, [None] when it
    rejects. Assigning [onended] on a missing video track raises, which the
    enclosing [catch] absorbs. *)
Definition startScreenShare (display : option MediaStream) (s : State) : State :=
  match display with
  | None => s
  | Some screenStream =>
      let videoTrack := head (getVideoTracks screenStream) in
      let s1 := forEach_pc (replaceVideo videoTrack) s in
      let s2 := set_isScreenSharing true s1 in
      let s3 := emit (StartScreenShare meetingKey) s2 in
      match videoTrack with
      | Some vt => set_onended ({[track_id vt]} ∪ onended s3) s3
      | None => s3
      end
  end.

(** [stopScreenShare]; [camera] is what [getUserMedia] resolves to. *)
Definition stopScreenShare (camera : option MediaStream) (s : State) : State :=
  match camera with
  | None => s
  | Some cameraStream =>
      let videoTrack := head (getVideoTracks cameraStream) in
      let s1 := forEach_pc (replaceVideo videoTrack) s in
      let s2 := set_localStream (Some cameraStream) s1 in
      let s3 := set_isScreenSharing false s2 in
      emit (StopScreenShare meetingKey) s3
  end.

Definition toggleScreenShare (display camera : option MediaStream) (s : State)
  : State :=
  if negb (isScreenSharing s) then startScreenShare display s
  else stopScreenShare camera s.


(** [socket.on('user-left', ...)], the same in both components as far as
    the connections are concerned. *)
Definition on_user_left (socketId : string) (s : State) : State :=
  let s1 := set_participants (delete socketId (participants s)) s in
  match peerConnections s1 !! socketId with
  | Some pc =>
      set_peerConnections (delete socketId (peerConnections s1))
        (update_pc pc close s1)
  | None => s1
  end.

(** [handleAnswer], the same in both components. *)
Definition handleAnswer (answer : jsval) (from : string) (s : State) : State :=
  match peerConnections s !! from with
  | Some pc => update_pc pc (setRemoteDescription answer) s
  | None => s
  end.

(** [socket.on('user-started-screen-share' | 'user-stopped-screen-share')] *)
Definition on_screen_share (v : bool) (socketId : string) (s : State) : State :=
  set_participants (alter (set_sharing v) socketId (participants s)) s.

End Component.

(** *** [cleanup], with the host calls that may raise

    [cleanup] has no [try]; an exception raised by a host call leaves the
    function at that call. [throws] tells which host calls raise. A step
    returns the state reached and whether it raised. *)

Inductive HostCall : Type :=
| StopTrack (t : nat)
| ClosePc (pc : nat)
| SocketEmit (m : ClientMsg)
| SocketDisconnect.

Section Cleanup.

Variable meetingKey : string.
Variable throws : HostCall → bool.

(** The value of [localStream] in the render whose [cleanup] runs. *)
Variable seenStream : option MediaStream.

Definition call (c : HostCall) (effect : State → State) (s : State)
  : State * bool :=
  if throws c then (s, true) else (effect s, false).

Definition andThen (a b : State → State * bool) (s : State) : State * bool :=
  let '(s1, raised) := a s in
  if raised then (s1, true) else b s1.

Fixpoint forEach {A : Type} (body : A → State → State * bool) (l : list A)
  (s : State) : State * bool :=
  match l with
  | [] => (s, false)
  | x :: l' => andThen (body x) (forEach body l') s
  end.

(** [if (localStream) localStream.getTracks().forEach(track => track.stop())] *)
Definition stop_tracks (s : State) : State * bool :=
  match seenStream with
  | Some stream =>
      forEach (λ t, call (StopTrack (track_id t))
                      (λ s', set_stopped ({[track_id t]} ∪ stopped s') s'))
        stream s
  | None => (s, false)
  end.

(** [peerConnectionsRef.current.forEach(pc => pc.close())], then
    [peerConnectionsRef.current.clear()] *)
Definition close_all (s : State) : State * bool :=
  andThen
    (λ s0, forEach (λ kv : string * nat,
                      call (ClosePc kv.2) (update_pc kv.2 close))
             (map_to_list (peerConnections s0)) s0)
    (λ s1, (set_peerConnections ∅ s1, false)) s.

(** [if (meetingKey) socketService.leaveRoom(meetingKey)] *)
Definition leaveRoom (s : State) : State * bool :=
  if bool_decide (meetingKey = "") then (s, false)
  else if socket s then
    call (SocketEmit (LeaveRoom meetingKey))
      (set_sent (sent s ++ [LeaveRoom meetingKey])%list) s
  else (s, false).

(** [socketService.disconnect()] *)
Definition disconnect (s : State) : State * bool :=
  if socket s then call SocketDisconnect (set_socket false) s else (s, false).

Definition cleanup : State → State * bool :=
  andThen stop_tracks (andThen close_all (andThen leaveRoom disconnect)).

End Cleanup.

(** [leaveMeeting], the handler of the Leave button: it is the one of the
    latest render, so its [cleanup] sees the current [localStream]. When
    [cleanup] has returned, [navigate('/dashboard')] unmounts the
    component. *)
Definition leaveMeeting (meetingKey : string) (throws : HostCall → bool)
  (s : State) : State * bool :=
  cleanup meetingKey throws (localStream s) s.

(** The function returned by the effect, which React runs when the
    component unmounts: the [cleanup] of the render that ran the effect. *)
Definition unmount (meetingKey : string) (throws : HostCall → bool)
  (s : State) : State * bool :=
  cleanup meetingKey throws mount_localStream s.

End Client.

(** ** The first [MeetingRoom] component *)

Module MeetingRoom.

Export Client.

Section Component.

Variable meetingKey : string.
Variable me : jsval.

(** [createPeerConnection(socketId, isInitiator)]; the result is the
    state and the connection returned. Every call comes from a socket
    listener or from a timer armed by one, so [localStream] is read in the
    render that ran the effect. *)
Definition createPeerConnection (socketId : string) (isInitiator : bool)
  (s : State) : State * option nat :=
  match peerConnections s !! socketId with
  | Some pc => (s, Some pc)
  | None =>
      let pc := nextPc s in
      let s1 := set_nextPc (S pc)
                  (set_heap (<[pc := newPeerConnection mount_localStream]> (heap s)) s) in
      let s2 := set_peerConnections (<[socketId := pc]> (peerConnections s1)) s1 in
      let s3 :=
        if isInitiator then
          let offer := createOffer pc in
          emit (Offer meetingKey offer socketId)
            (update_pc pc (setLocalDescription offer) s2)
        else s2 in
      (s3, Some pc)
  end.

(** [handleOffer(offer, from, userId)] *)
Definition handleOffer (offer : jsval) (from : string) (s : State) : State :=
  let '(s1, pc) :=
    match peerConnections s !! from with
    | Some pc => (s, Some pc)
    | None => createPeerConnection from false s
    end in
  match pc with
  | Some pc =>
      let s2 := update_pc pc (setRemoteDescription offer) s1 in
      let answer := createAnswer pc in
      let s3 := update_pc pc (setLocalDescription answer) s2 in
      emit (Answer meetingKey answer from) s3
  | None => s1
  end.

(** [pc && pc.remoteDescription] *)
Definition ready (s : State) (from : string) : option nat :=
  match peerConnections s !! from with
  | Some pc =>
      match heap s !! pc with
      | Some p =>
          match remoteDescription p with Some _ => Some pc | None => None end
      | None => None
      end
  | None => None
  end.

(** [handleIceCandidate(candidate, from)]: applied when the connection has
    a remote description, otherwise tried again a second later. *)
Definition handleIceCandidate (candidate : jsval) (from : string) (s : State)
  : State :=
  match ready s from with
  | Some pc => update_pc pc (addIceCandidate candidate) s
  | None => setTimeout (THandleIceCandidate candidate from) 1000 s
  end.

(** [socket.on('room-users', ...)] *)
Definition on_room_users (users : list Participant) (s : State) : State :=
  let others := filter (λ p, js_strict_eq (userId p) me = false) users in
  let s1 := foldl (λ st p, setTimeout (TCreatePeerConnection (socketId p) true) 500 st)
              s others in
  set_participants (foldl (λ m p, <[socketId p := p]> m) ∅ others) s1.

(** [socket.on('user-joined', ...)] *)
Definition on_user_joined (participant : Participant) (s : State) : State :=
  if js_strict_eq (userId participant) me then s
  else
    setTimeout (TCreatePeerConnection (socketId participant) false) 500
      (set_participants (<[socketId participant := participant]> (participants s)) s).

(** The listeners registered by [setupSocketListeners]; chat and recording
    events touch presentation state only. *)
Definition on_event (ev : ServerEvent) (s : State) : State :=
  match ev with
  | RoomUsers users => on_room_users users s
  | UserJoined participant => on_user_joined participant s
  | UserLeft socketId => on_user_left socketId s
  | WebrtcOffer offer from _ => handleOffer offer from s
  | WebrtcAnswer answer from => handleAnswer answer from s
  | WebrtcIceCandidate candidate from => handleIceCandidate candidate from s
  | UserStartedScreenShare _ socketId => on_screen_share true socketId s
  | UserStoppedScreenShare _ socketId => on_screen_share false socketId s
  | ChatMessage _ _ _ | RecordingStarted _ | RecordingStopped _ => s
  end.

Definition run_task (task : Task) (s : State) : State :=
  match task with
  | TCreatePeerConnection socketId isInitiator =>
      (createPeerConnection socketId isInitiator s).1
  | THandleIceCandidate candidate from => handleIceCandidate candidate from s
  end.

(** The event loop: timers fire in order of due time, and in order of
    registration among equal due times. [pop_due t l] takes the next timer
    due at or before [t] out of [l]. *)
Fixpoint earliest (l : list (nat * Task)) : option nat :=
  match l with
  | [] => None
  | (due, _) :: l' =>
      match earliest l' with
      | Some d => Some (if decide (d < due)%nat then d else due)
      | None => Some due
      end
  end.

Fixpoint take_first (due : nat) (l : list (nat * Task))
  : option (Task * list (nat * Task)) :=
  match l with
  | [] => None
  | (d, task) :: l' =>
      if decide (d = due) then Some (task, l')
      else match take_first due l' with
           | Some (task', rest) => Some (task', (d, task) :: rest)
           | None => None
           end
  end.

Definition pop_due (t : nat) (l : list (nat * Task))
  : option (nat * Task * list (nat * Task)) :=
  match earliest l with
  | Some due =>
      if decide (due ≤ t)%nat then
        match take_first due l with
        | Some (task, rest) => Some (due, task, rest)
        | None => None
        end
      else None
  | None => None
  end.

(** Let the clock reach [t], firing the timers that fall due on the way;
    [None] when [fuel] firings did not suffice. *)
Fixpoint advance (fuel : nat) (t : nat) (s : State) : option State :=
  match pop_due t (timers s) with
  | None => Some (set_clock t s)
  | Some (due, task, rest) =>
      match fuel with
      | 0 => None
      | S fuel' =>
          advance fuel' t (run_task task (set_clock due (set_timers rest s)))
      end
  end.

(** The events of a list handled one after the other. *)
Definition feed (evs : list ServerEvent) (s : State) : State :=
  foldl (λ st ev, on_event ev st) s evs.

(** A run over relay events stamped with their arrival time. *)
Fixpoint simulate (fuel : nat) (trace : list (nat * ServerEvent)) (s : State)
  : option State :=
  match trace with
  | [] => Some s
  | (t, ev) :: trace' =>
      match advance fuel t s with
      | Some s1 => simulate fuel trace' (on_event ev s1)
      | None => None
      end
  end.

End Component.

End MeetingRoom.

(** ** The second [MeetingRoom] component *)

Module MeetingRoom2.

Export Client.

Section Component.

Variable meetingKey : string.
Variable me : jsval.

(** [createPeerConnection(socketId, isInitiator)]: a new connection is
    made and stored under [socketId] on every call. As in the first
    component, [localStream] is read in the render that ran the effect. *)
Definition createPeerConnection (socketId : string) (isInitiator : bool)
  (s : State) : State * option nat :=
  let pc := nextPc s in
  let s1 := set_nextPc (S pc)
              (set_heap (<[pc := newPeerConnection mount_localStream]> (heap s)) s) in
  let s2 := set_peerConnections (<[socketId := pc]> (peerConnections s1)) s1 in
  let s3 :=
    if isInitiator then
      let offer := createOffer pc in
      emit (Offer meetingKey offer socketId)
        (update_pc pc (setLocalDescription offer) s2)
    else s2 in
  (s3, Some pc).

(** [handleOffer(offer, from, userId)] *)
Definition handleOffer (offer : jsval) (from : string) (s : State) : State :=
  let '(s1, pc) :=
    match peerConnections s !! from with
    | Some pc => (s, Some pc)
    | None => createPeerConnection from false s
    end in
  match pc with
  | Some pc =>
      let s2 := update_pc pc (setRemoteDescription offer) s1 in
      let answer := createAnswer pc in
      let s3 := update_pc pc (setLocalDescription answer) s2 in
      emit (Answer meetingKey answer from) s3
  | None => s1
  end.

(** [handleIceCandidate(candidate, from)]: [addIceCandidate] is called
    whenever a connection is stored for [from]; when the host rejects the
    call, the [catch] logs the error. *)
Definition handleIceCandidate (candidate : jsval) (from : string) (s : State)
  : State :=
  match peerConnections s !! from with
  | Some pc => update_pc pc (addIceCandidate_unchecked candidate) s
  | None => s
  end.

(** [socket.on('room-users', ...)] *)
Definition on_room_users (users : list Participant) (s : State) : State :=
  let others := filter (λ p, js_strict_eq (userId p) me = false) users in
  let s1 := foldl (λ st p, (createPeerConnection (socketId p) true st).1)
              s others in
  set_participants (foldl (λ m p, <[socketId p := p]> m) ∅ others) s1.

(** [socket.on('user-joined', ...)] *)
Definition on_user_joined (participant : Participant) (s : State) : State :=
  if js_strict_eq (userId participant) me then s
  else
    (createPeerConnection (socketId participant) true
       (set_participants (<[socketId participant := participant]> (participants s)) s)).1.

Definition on_event (ev : ServerEvent) (s : State) : State :=
  match ev with
  | RoomUsers users => on_room_users users s
  | UserJoined participant => on_user_joined participant s
  | UserLeft socketId => on_user_left socketId s
  | WebrtcOffer offer from _ => handleOffer offer from s
  | WebrtcAnswer answer from => handleAnswer answer from s
  | WebrtcIceCandidate candidate from => handleIceCandidate candidate from s
  | UserStartedScreenShare _ socketId => on_screen_share true socketId s
  | UserStoppedScreenShare _ socketId => on_screen_share false socketId s
  | ChatMessage _ _ _ | RecordingStarted _ | RecordingStopped _ => s
  end.

Definition feed (evs : list ServerEvent) (s : State) : State :=
  foldl (λ st ev, on_event ev st) s evs.

End Component.

End MeetingRoom2.

(** ** The HTTP side of [server/server.js] *)

Module Server.

(** [s.charAt(i)]: the one-character string at index [i], the empty string
    when [i] is out of range. *)
Definition charAt (s : string) (i : nat) : string :=
  match String.get i s with
  | Some c => String c EmptyString
  | None => ""
  end.

(** [segments.join(sep)] *)
Fixpoint join (sep : string) (l : list string) : string :=
  match l with
  | [] => ""
  | [x] => x
  | x :: l' => x ++ sep ++ join sep l'
  end.

Definition chars : string := "abcdefghijklmnopqrstuvwxyz".

Section MeetingKey.

(** [random k] is the value of [Math.floor(Math.random() * chars.length)]
    at the [k]-th call of [Math.random]. *)
Variable random : nat → nat.

(** The inner loop, [j] iterations left; [n] counts the calls made. *)
Fixpoint segment_loop (j : nat) (n : nat) (segment : string) : string * nat :=
  match j with
  | 0 => (segment, n)
  | S j' => segment_loop j' (S n) (segment ++ charAt chars (random n))
  end.

(** The outer loop, [i] iterations left. *)
Fixpoint segments_loop (i : nat) (n : nat) (segments : list string)
  : list string * nat :=
  match i with
  | 0 => (segments, n)
  | S i' =>
      let '(segment, n') := segment_loop 3 n "" in
      segments_loop i' n' (segments ++ [segment])%list
  end.

(** [generateMeetingKey()]; the result is the key and the number of calls
    of [Math.random] made so far. *)
Definition generateMeetingKey (n : nat) : string * nat :=
  let '(segments, n') := segments_loop 3 n [] in
  (join "-" segments, n').

End MeetingKey.

(** [s.split(sep)] for a separator of one character; [cur] is the piece
    being read. *)
Fixpoint split_aux (sep : ascii) (s : string) (cur : string) : list string :=
  match s with
  | EmptyString => [cur]
  | String c s' =>
      if decide (c = sep) then cur :: split_aux sep s' ""
      else split_aux sep s' (cur ++ String c EmptyString)
  end.

Definition split (sep : ascii) (s : string) : list string := split_aux sep s "".

(** What the middleware does with the request. *)
Inductive Outcome : Type :=
| Status (code : nat) (message : string)
| Next (user : jsval).

(** [authenticateToken]; [verify token] is the payload that [jwt.verify]
    hands to its callback, [None] when it hands an error. [authHeader] is
    [req.headers['authorization']]. *)
Definition authenticateToken (verify : string → option jsval)
  (authHeader : option string) : Outcome :=
  let token :=
    match authHeader with
    | None => None
    | Some h => if bool_decide (h = "") then Some "" else split " " h !! 1%nat
    end in
  match token with
  | None => Status 401 "Authentication required"
  | Some t =>
      if bool_decide (t = "") then Status 401 "Authentication required"
      else match verify t with
           | None => Status 403 "Invalid or expired token"
           | Some user => Next user
           end
  end.

End Server.

(** ** The client's HTTP side: [ApiService.request] and [AuthContext] *)

Module AuthContext.

(** The [Authorization] header that [ApiService.request] spreads into the
    request for the token found in [localStorage]: none for a missing or
    empty token. *)
Definition authorization (token : option string) : option string :=
  match token with
  | Some t => if bool_decide (t = "") then None else Some ("Bearer " ++ t)
  | None => None
  end.

(** The requests [AuthContext] makes. *)
Inductive Request : Type :=
| GetProfile (authorizationHeader : string)
| PostLogin (email password deviceId : string)
| PostRegister (name email password : string)
| PostLogout (authorizationHeader : string).

(** The provider state, [localStorage], and the requests made so far. *)
Record State : Type := {
  user : option jsval;
  loading : bool;
  storage : gmap string string;
  requests : list Request;
}.

(** A value read from [localStorage] used as a condition. *)
Definition truthy_item (v : option string) : option string :=
  match v with
  | Some x => if bool_decide (x = "") then None else Some x
  | None => None
  end.

(** [getOrCreateDeviceId()]; [uuid] is what [crypto.randomUUID()] returns. *)
Definition getOrCreateDeviceId (uuid : string) (st : gmap string string)
  : string * gmap string string :=
  match truthy_item (st !! "deviceId") with
  | Some id => (id, st)
  | None => (uuid, <["deviceId" := uuid]> st)
  end.

(** The outcome of an [axios] call: the [token] and [user] of the response
    data, or the [message] of the error response when there is one. *)
Definition Reply : Type := option string + string * jsval.

(** [err.response?.data?.message || fallback] *)
Definition error_message (message : option string) (fallback : string) : string :=
  match truthy_item message with
  | Some m => m
  | None => fallback
  end.

(** [login(email, password)]; the second component is the message of the
    [Error] thrown, if one is. *)
Definition login (email password uuid : string) (reply : Reply) (s : State)
  : State * option string :=
  let '(deviceId, storage1) := getOrCreateDeviceId uuid (storage s) in
  let requests1 := (requests s ++ [PostLogin email password deviceId])%list in
  match reply with
  | inr (newToken, userData) =>
      ({| user := Some userData; loading := false;
          storage := <["token" := newToken]> storage1;
          requests := requests1 |}, None)
  | inl message =>
      ({| user := user s; loading := false; storage := storage1;
          requests := requests1 |},
       Some (error_message message "Failed to login"))
  end.

(** [register(name, email, password)] *)
Definition register (name email password : string) (reply : Reply) (s : State)
  : State * option string :=
  let requests1 := (requests s ++ [PostRegister name email password])%list in
  match reply with
  | inr (newToken, userData) =>
      ({| user := Some userData; loading := false;
          storage := <["token" := newToken]> (storage s);
          requests := requests1 |}, None)
  | inl message =>
      ({| user := user s; loading := false; storage := storage s;
          requests := requests1 |},
       Some (error_message message "Failed to register"))
  end.

(** [logout()]; [succeeds] tells whether the request goes through. The
    [finally] block runs either way. *)
Definition logout (succeeds : bool) (s : State) : State :=
  let requests1 :=
    match truthy_item (storage s !! "token") with
    | Some token => (requests s ++ [PostLogout ("Bearer " ++ token)])%list
    | None => requests s
    end in
  {| user := None; loading := loading s;
     storage := delete "token" (storage s); requests := requests1 |}.

(** [checkAuthStatus()]; [profile] is the [user] of the response, [None]
    when the request fails. The cookie jar, from which the failure branch
    also removes [token], is not part of the state. *)
Definition checkAuthStatus (profile : option jsval) (s : State) : State :=
  match truthy_item (storage s !! "token") with
  | Some token =>
      let requests1 := (requests s ++ [GetProfile ("Bearer " ++ token)])%list in
      match profile with
      | Some u =>
          {| user := Some u; loading := false; storage := storage s;
             requests := requests1 |}
      | None =>
          {| user := user s; loading := false;
             storage := delete "token" (storage s); requests := requests1 |}
      end
  | None =>
      {| user := user s; loading := false; storage := storage s;
         requests := requests s |}
  end.

End AuthContext.

(** ** [SocketService] *)

Module SocketService.

Import Relay.

(** What goes out: a message emitted on a socket, or the close of one. *)
Inductive Wire : Type :=
| Emitted (sk : nat) (m : ClientMsg)
| Closed (sk : nat).

(** The singleton: the socket it holds, the number of sockets made by
    [io(...)], the token each was made with, and what went out. *)
Record State : Type := {
  socket : option nat;
  created : nat;
  handshakes : list (nat * option string);
  wire : list Wire;
}.

Definition initial : State :=
  {| socket := None; created := 0; handshakes := []; wire := [] |}.

(** [connect()]; [token] is [localStorage.getItem('token')]. *)
Definition connect (token : option string) (s : State) : State * nat :=
  match socket s with
  | Some sk => (s, sk)
  | None =>
      ({| socket := Some (created s); created := S (created s);
          handshakes := (handshakes s ++ [(created s, token)])%list;
          wire := wire s |}, created s)
  end.

(** [disconnect()] *)
Definition disconnect (s : State) : State :=
  match socket s with
  | Some sk =>
      {| socket := None; created := created s; handshakes := handshakes s;
         wire := (wire s ++ [Closed sk])%list |}
  | None => s
  end.

(** [this.socket?.emit(...)], the body of every sending method. *)
Definition send (m : ClientMsg) (s : State) : State :=
  match socket s with
  | Some sk =>
      {| socket := socket s; created := created s; handshakes := handshakes s;
         wire := (wire s ++ [Emitted sk m])%list |}
  | None => s
  end.

Definition joinRoom (meetingKey : string) (userInfo : UserInfo) : State → State :=
  send (JoinRoom meetingKey userInfo).
Definition leaveRoom (meetingKey : string) : State → State :=
  send (LeaveRoom meetingKey).
Definition sendMessage (meetingKey : string) (message : jsval) : State → State :=
  send (Chat meetingKey message).
Definition sendOffer (meetingKey : string) (offer : jsval) (to : string)
  : State → State := send (Offer meetingKey offer to).
Definition sendAnswer (meetingKey : string) (answer : jsval) (to : string)
  : State → State := send (Answer meetingKey answer to).
Definition sendIceCandidate (meetingKey : string) (candidate : jsval) (to : string)
  : State → State := send (IceCandidate meetingKey candidate to).
Definition startScreenShare (meetingKey : string) : State → State :=
  send (StartScreenShare meetingKey).
Definition stopScreenShare (meetingKey : string) : State → State :=
  send (StopScreenShare meetingKey).
Definition startRecording (meetingKey : string) : State → State :=
  send (StartRecording meetingKey).
Definition stopRecording (meetingKey : string) : State → State :=
  send (StopRecording meetingKey).

(** The calls a user of the service can make, and a run of them. *)
Inductive Call : Type :=
| CConnect (token : option string)
| CDisconnect
| CSend (m : ClientMsg).

Definition call (c : Call) (s : State) : State :=
  match c with
  | CConnect token => (connect token s).1
  | CDisconnect => disconnect s
  | CSend m => send m s
  end.

Definition calls (cs : list Call) (s : State) : State :=
  foldl (λ st c, call c st) s cs.

End SocketService.

(** ** The media toggles of [MeetingRoom] *)

Module Controls.

Import Client.

(** The component state of [Client] with the [enabled] attribute of the
    tracks (absent from the map: enabled, as a new track is) and the two
    flags shown on the buttons. *)
Record State : Type := {
  room : Client.State;
  enabled : gmap nat bool;
  isAudioEnabled : bool;
  isVideoEnabled : bool;
}.

Definition track_enabled (s : State) (id : nat) : bool :=
  default true (enabled s !! id).

Definition getAudioTracks (stream : MediaStream) : list Track :=
  filter (λ t, kind t = Audio) stream.

(** [toggleAudio] *)
Definition toggleAudio (s : State) : State :=
  match localStream (room s) with
  | Some stream =>
      match head (getAudioTracks stream) with
      | Some audioTrack =>
          let e := negb (track_enabled s (track_id audioTrack)) in
          {| room := room s;
             enabled := <[track_id audioTrack := e]> (enabled s);
             isAudioEnabled := e; isVideoEnabled := isVideoEnabled s |}
      | None => s
      end
  | None => s
  end.

(** [toggleVideo] *)
Definition toggleVideo (s : State) : State :=
  match localStream (room s) with
  | Some stream =>
      match head (getVideoTracks stream) with
      | Some videoTrack =>
          let e := negb (track_enabled s (track_id videoTrack)) in
          {| room := room s;
             enabled := <[track_id videoTrack := e]> (enabled s);
             isAudioEnabled := isAudioEnabled s; isVideoEnabled := e |}
      | None => s
      end
  | None => s
  end.

End Controls.

(** ** The route guards of [App] *)

Module App.

(** What a route element renders. *)
Inductive View : Type :=
| LoadingSpinner
| Page (name : string)
| Navigate (to : string).

(** [ProtectedRoute] and [PublicRoute]; [user] and [loading] come from
    [useAuth()]. *)
Definition ProtectedRoute (user : option jsval) (loading : bool)
  (children : View) : View :=
  if loading then LoadingSpinner
  else match user with
       | Some _ => children
       | None => Navigate "/login"
       end.

Definition PublicRoute (user : option jsval) (loading : bool)
  (children : View) : View :=
  if loading then LoadingSpinner
  else match user with
       | Some _ => Navigate "/dashboard"
       | None => children
       end.

(** The route table of [App], by the path pattern matched. *)
Definition route (pattern : string) (user : option jsval) (loading : bool)
  : option View :=
  if bool_decide (pattern = "/login") then
    Some (PublicRoute user loading (Page "Login"))
  else if bool_decide (pattern = "/register") then
    Some (PublicRoute user loading (Page "Register"))
  else if bool_decide (pattern = "/dashboard") then
    Some (ProtectedRoute user loading (Page "Dashboard"))
  else if bool_decide (pattern = "/meeting/:meetingKey") then
    Some (ProtectedRoute user loading (Page "MeetingRoom"))
  else if bool_decide (pattern = "/join") then
    Some (ProtectedRoute user loading (Page "JoinMeeting"))
  else if bool_decide (pattern = "/") then
    Some (Navigate "/dashboard")
  else None.

(** Rendering a pattern and following [Navigate] up to [fuel] times. *)
Fixpoint settle (fuel : nat) (pattern : string) (user : option jsval)
  (loading : bool) : option View :=
  match route pattern user loading with
  | Some (Navigate to) =>
      match fuel with
      | 0 => Some (Navigate to)
      | S fuel' => settle fuel' to user loading
      end
  | v => v
  end.

End App.

(** ** Vocabulary of the statements

    The definitions below are not taken from the source; they name what
    the properties talk about. *)

Section RelayVocabulary.
Import Relay.

(** The target of a directed message. *)
Definition target (m : ClientMsg) : option string :=
  match m with
  | Offer _ _ to | Answer _ _ to | IceCandidate _ _ to => Some to
  | _ => None
  end.

(** The events that are relayed to a room, as opposed to the snapshot reply
    and the directed WebRTC messages. *)
Definition is_broadcast (ev : ServerEvent) : bool :=
  match ev with
  | RoomUsers _ | WebrtcOffer _ _ _ | WebrtcAnswer _ _
  | WebrtcIceCandidate _ _ => false
  | _ => true
  end.

(** The listeners that act only for a socket with a participant record. *)
Definition guarded (m : ClientMsg) : bool :=
  match m with
  | Chat _ _ | StartScreenShare _ | StopScreenShare _
  | StartRecording _ | StopRecording _ => true
  | _ => false
  end.

(** The sockets a broadcast-type message from [sid] is to reach. *)
Definition broadcast_recipients (s : State) (sid : string) (m : ClientMsg)
  : option (gset string) :=
  match m with
  | Chat key _ | StartRecording key | StopRecording key =>
      Some (members s key)
  | JoinRoom key _ | LeaveRoom key
  | StartScreenShare key | StopScreenShare key =>
      Some (members s key ∖ {[sid]})
  | _ => None
  end.

(** The participant record of [sid] at the moment its broadcast-type
    message is relayed: the record just stored for [join-room], the
    record held when the message arrives otherwise. *)
Definition record_when_relayed (now sid : string) (m : ClientMsg) (s : State)
  : option Participant :=
  match m with
  | JoinRoom _ _ => participants (handle now sid m s).1 !! sid
  | _ => participants s !! sid
  end.

(** The event that stands for a broadcast-type message of socket [sid]
    whose participant record is [p], at time [now]. *)
Definition relayed_as (now sid : string) (p : Participant) (m : ClientMsg)
  : option ServerEvent :=
  match m with
  | JoinRoom _ _ => Some (UserJoined p)
  | LeaveRoom _ => Some (UserLeft sid)
  | Chat _ message => Some (ChatMessage message (user p) now)
  | StartScreenShare _ => Some (UserStartedScreenShare (userId p) sid)
  | StopScreenShare _ => Some (UserStoppedScreenShare (userId p) sid)
  | StartRecording _ => Some (RecordingStarted (user p))
  | StopRecording _ => Some (RecordingStopped (user p))
  | _ => None
  end.

(** The participants the specification expects in the snapshot: those of
    the room before the join that still have a record, the joiner left out. *)
Definition prior_participants (s : State) (sid key : string)
  : list Participant :=
  omap (λ id, participants s !! id)
       (filter (λ id, id ≠ sid) (default [] (rooms s !! key))).

(** The socket an input of the relay comes from. *)
Definition sender (i : Input) : string :=
  match i with
  | Connect sid | Message sid _ | Disconnect sid => sid
  end.

(** No room of the registry is empty. *)
Definition rooms_nonempty (s : State) : Prop :=
  ∀ key set, rooms s !! key = Some set → set ≠ [].

(** A participant record is stored under the socket id it carries, and
    that socket is listed in the room the record names. *)
Definition registered_in_room (s : State) : Prop :=
  ∀ sid p, participants s !! sid = Some p →
    socketId p = sid ∧
    ∃ set, rooms s !! meetingKey p = Some set ∧ sid ∈ set.

(** The event a directed message of socket [sid] is to arrive as: the same
    kind and payload, [from] the sending socket; an offer also carries the
    [userId] of the sender's participant record, undefined without one. *)
Definition delivered_as (s : State) (sid : string) (m : ClientMsg)
  : option ServerEvent :=
  match m with
  | Offer _ offer _ =>
      Some (WebrtcOffer offer sid
              (match participants s !! sid with
               | Some p => userId p
               | None => JUndefined
               end))
  | Answer _ answer _ => Some (WebrtcAnswer answer sid)
  | IceCandidate _ candidate _ => Some (WebrtcIceCandidate candidate sid)
  | _ => None
  end.

(** The socket is in no Socket.IO room. *)
Definition offline (sid : string) (s : State) : Prop :=
  ∀ room, sid ∉ members s room.

End RelayVocabulary.

(** In what went out of the socket service, nothing is emitted on a
    socket, and no socket is closed again, after its close. *)
Definition quiet_after_close (l : list SocketService.Wire) : Prop :=
  ∀ l1 l2 sk, l = (l1 ++ SocketService.Closed sk :: l2)%list →
    ∀ m, (SocketService.Emitted sk m ∉ l2) ∧ (SocketService.Closed sk ∉ l2).

(** The socket held by the service was made by it and has not been
    closed, every socket that occurs in what went out was made by it, and
    what went out is quiet after each close. *)
Definition service_ok (s : SocketService.State) : Prop :=
  (∀ sk, SocketService.socket s = Some sk →
         (sk < SocketService.created s)%nat ∧
         SocketService.Closed sk ∉ SocketService.wire s) ∧
  (∀ sk m, SocketService.Emitted sk m ∈ SocketService.wire s →
           (sk < SocketService.created s)%nat) ∧
  (∀ sk, SocketService.Closed sk ∈ SocketService.wire s →
         (sk < SocketService.created s)%nat) ∧
  quiet_after_close (SocketService.wire s).

(** A lower-case letter of the Latin alphabet. *)
Definition is_lower (c : ascii) : bool :=
  bool_decide (97 ≤ nat_of_ascii c ≤ 122)%nat.

(** The string holds no occurrence of the character. *)
Fixpoint without (sep : ascii) (s : string) : bool :=
  match s with
  | EmptyString => true
  | String c s' => negb (bool_decide (c = sep)) && without sep s'
  end.

(** The toggle of one kind of track and the flag shown on its button. *)
Definition toggle (k : Client.TrackKind) : Controls.State → Controls.State :=
  match k with
  | Client.Audio => Controls.toggleAudio
  | Client.Video => Controls.toggleVideo
  end.

Definition button (k : Client.TrackKind) (s : Controls.State) : bool :=
  match k with
  | Client.Audio => Controls.isAudioEnabled s
  | Client.Video => Controls.isVideoEnabled s
  end.

Section ClientVocabulary.
Import Client.

(** The connection objects of the map, in iteration order. *)
Definition connections (s : State) : list nat :=
  (map_to_list (peerConnections s)).*2.

(** No connection object is stored under two socket ids, and the objects
    in the map are allocated ones. *)
Definition wf (s : State) : Prop :=
  NoDup (connections s) ∧ Forall (λ pc, (pc < nextPc s)%nat) (connections s).

(** Every open connection object is the one stored for some socket id. *)
Definition tracked (s : State) : Prop :=
  ∀ id p, heap s !! id = Some p → closed p = false →
          ∃ sid, peerConnections s !! sid = Some id.

(** Every connection of the map has its object in the heap. *)
Definition linked (s : State) : Prop :=
  map_Forall (λ _ pc, is_Some (heap s !! pc)) (peerConnections s).



(** No connection object has a sender. *)
Definition no_senders (s : State) : Prop :=
  ∀ id p, heap s !! id = Some p → senders p = [].

(** A connection that was given an ICE candidate has a remote
    description. *)
Definition candidates_after_remote (s : State) : Prop :=
  ∀ id p, heap s !! id = Some p → candidates p ≠ [] →
          is_Some (remoteDescription p).

(** A bound on the timer firings needed to reach time [t]: a timer due at
    [d ≤ t] can fire once and re-arm itself every 1000 ms until [t]. *)
Definition backlog (t : nat) (l : list (nat * Task)) : nat :=
  sum_list_with
    (λ dt, if decide (dt.1 ≤ t)%nat then S ((t - dt.1) / 1000) else 0%nat) l.

End ClientVocabulary.

(** ** Sample data for the scenarios *)

Definition sample_info : Relay.UserInfo :=
  {| Relay.ui_userId := JStr "u-a"; Relay.ui_user := JUndefined;
     Relay.ui_audioEnabled := JBool false;
     Relay.ui_videoEnabled := JBool false |}.

Definition info_e : Relay.UserInfo :=
  {| Relay.ui_userId := JStr "u-e"; Relay.ui_user := JUndefined;
     Relay.ui_audioEnabled := JBool true;
     Relay.ui_videoEnabled := JBool true |}.

Definition info_j : Relay.UserInfo :=
  {| Relay.ui_userId := JStr "u-j"; Relay.ui_user := JUndefined;
     Relay.ui_audioEnabled := JBool true;
     Relay.ui_videoEnabled := JBool true |}.

(** The relay after [sock-e] and [sock-j] connected and [sock-e] joined
    room [r]. *)
Definition room_with_e : Relay.State :=
  (Relay.run "t" [Relay.Connect "sock-e"; Relay.Connect "sock-j";
                  Relay.Message "sock-e" (Relay.JoinRoom "r" info_e)]
     Relay.init).1.

(** The relay once [sock-j] has joined room [r] as well. *)
Definition room_with_e_j : Relay.State :=
  (Relay.handle "t" "sock-j" (Relay.JoinRoom "r" info_j) room_with_e).1.

Definition part_b : Relay.Participant :=
  Relay.mkParticipant "sock-b" "r"
    {| Relay.ui_userId := JStr "u-b"; Relay.ui_user := JUndefined;
       Relay.ui_audioEnabled := JBool true;
       Relay.ui_videoEnabled := JBool true |}.

Definition part_r : Relay.Participant :=
  Relay.mkParticipant "sock-r" "r"
    {| Relay.ui_userId := JStr "u-r"; Relay.ui_user := JUndefined;
       Relay.ui_audioEnabled := JBool true;
       Relay.ui_videoEnabled := JBool true |}.

(** Relay events with their arrival times in milliseconds: two candidates
    of [sock-r] arrive before its answer. *)
Definition early_candidates : list (nat * Relay.ServerEvent) :=
  [(0, Relay.RoomUsers [part_r]);
   (600, Relay.WebrtcIceCandidate (JStr "c1") "sock-r");
   (1100, Relay.WebrtcIceCandidate (JStr "c2") "sock-r");
   (1800, Relay.WebrtcAnswer (JStr "answer") "sock-r")].

Definition camera_stream : Client.MediaStream :=
  [ {| Client.track_id := 1; Client.kind := Client.Audio |};
    {| Client.track_id := 2; Client.kind := Client.Video |} ].

(** What a second [getUserMedia] call resolves to: new tracks. *)
Definition second_camera_stream : Client.MediaStream :=
  [ {| Client.track_id := 11; Client.kind := Client.Audio |};
    {| Client.track_id := 12; Client.kind := Client.Video |} ].

(** What [getDisplayMedia({video: true, audio: true})] may resolve to. *)
Definition display_stream : Client.MediaStream :=
  [ {| Client.track_id := 6; Client.kind := Client.Audio |};
    {| Client.track_id := 7; Client.kind := Client.Video |} ].

(** The first component with camera and microphone once the timer armed
    by [room-users] has made the connection toward [sock-b]. *)
Definition in_call : Client.State :=
  (MeetingRoom.createPeerConnection "r" "sock-b" true
     (Client.mounted (Some camera_stream))).1.


Definition never_throws (c : Client.HostCall) : bool := false.

(** ** Properties of the relay *)

Section RelayFacts.
Import Relay.

Implicit Types (s : State) (sid key c : string) (out : list Emission).

Lemma observed_cons c e out :
  observed c (e :: out) =
  if decide (c ∈ em_to e) then em_ev e :: observed c out else observed c out.
Proof. unfold observed. rewrite filter_cons. by destruct (decide _). Qed.

Lemma observed_nil c : observed c [] = [].
Proof. done. Qed.

Lemma observed_app c out1 out2 :
  observed c (out1 ++ out2)%list = (observed c out1 ++ observed c out2)%list.
Proof. unfold observed. by rewrite filter_app, fmap_app. Qed.

Lemma elem_of_jsset_add x y (l : list string) :
  x ∈ jsset_add y l ↔ x = y ∨ x ∈ l.
Proof.
  unfold jsset_add. case_bool_decide as Hin.
  - split; [by right | intros [-> | ?]; done].
  - rewrite elem_of_app, list_elem_of_singleton. tauto.
Qed.

Lemma elem_of_jsset_delete x y (l : list string) :
  x ∈ jsset_delete y l ↔ x ≠ y ∧ x ∈ l.
Proof. unfold jsset_delete. by rewrite list_elem_of_filter. Qed.

Lemma members_sio_join sid room s r :
  members (sio_join sid room s) r =
  if decide (room = r) then {[sid]} ∪ members s r else members s r.
Proof.
  unfold members at 1. simpl. destruct (decide (room = r)) as [-> | Hne].
  - by rewrite lookup_insert_eq.
  - by rewrite lookup_insert_ne.
Qed.

Lemma members_sio_leave sid room s r :
  members (sio_leave sid room s) r =
  if decide (room = r) then members s r ∖ {[sid]} else members s r.
Proof.
  unfold members at 1. simpl. destruct (decide (room = r)) as [-> | Hne].
  - by rewrite lookup_insert_eq.
  - by rewrite lookup_insert_ne.
Qed.

Lemma members_sio_leave_all sid s r :
  members (sio_leave_all sid s) r = members s r ∖ {[sid]}.
Proof.
  unfold members. simpl. rewrite lookup_fmap.
  destruct (adapter s !! r) as [S |]; simpl; [done |].
  apply set_eq. intros x. rewrite elem_of_difference. split; [| tauto].
  intros Hx. by apply not_elem_of_empty in Hx.
Qed.


Lemma sender_not_in_others sid (S : gset string) : sid ∉ S ∖ {[sid]}.
Proof. rewrite elem_of_difference, elem_of_singleton. tauto. Qed.

Lemma observed_socket_to c s sid room ev :
  observed c [socket_to s sid room ev] =
  if decide (c ∈ members s room ∧ c ≠ sid) then [ev] else [].
Proof.
  rewrite observed_cons, observed_nil. simpl.
  destruct (decide (c ∈ members s room ∧ c ≠ sid)) as [[Hin Hne] | Hno].
  - rewrite decide_True; [done |].
    rewrite elem_of_difference, elem_of_singleton. done.
  - rewrite decide_False; [done |].
    rewrite elem_of_difference, elem_of_singleton. done.
Qed.

(** *** The join-time snapshot *)

Lemma join_room_rooms_lookup sid key userInfo s :
  rooms (join_room sid key userInfo s).1 !! key =
  Some (jsset_add sid (default [] (rooms s !! key))).
Proof.
  unfold join_room. simpl. rewrite lookup_insert_eq. f_equal. f_equal.
  case_bool_decide as Hk; [done |].
  rewrite lookup_insert_eq. simpl.
  destruct (rooms s !! key) eqn:E; [| done].
  exfalso. apply Hk. eauto.
Qed.

Lemma join_room_out sid key userInfo s :
  (join_room sid key userInfo s).2 =
  [socket_emit sid
     (RoomUsers
        (omap (λ id, <[sid := mkParticipant sid key userInfo]> (participants s) !! id)
           (jsset_add sid (default [] (rooms s !! key)))));
   socket_to (join_room sid key userInfo s).1 sid key
     (UserJoined (mkParticipant sid key userInfo))].
Proof.
  pose proof (join_room_rooms_lookup sid key userInfo s) as Hr.
  unfold join_room in *. simpl in *. by rewrite Hr.
Qed.

(** C1, refuted as stated: the first join into a fresh room is answered
    with a snapshot that holds the joiner's own record, so the snapshot is
    not, in any order, the list of the participants that were in the room
    before the join with the joiner left out (which is empty here). *)
Lemma snapshot_holds_the_joiner :
  let s := connect "a" init in
  ∃ ps, observed "a" (join_room "a" "r" sample_info s).2 = [RoomUsers ps] ∧
        mkParticipant "a" "r" sample_info ∈ ps ∧
        ¬ (ps ≡ₚ prior_participants s "a" "r").
Proof.
  exists [mkParticipant "a" "r" sample_info]. split; [vm_compute; done |].
  split; [apply list_elem_of_here |].
  intros Hperm%Permutation_length. vm_compute in Hperm. done.
Qed.

(** C1, amended: the joiner observes from its join exactly one event, a
    [room-users] snapshot, and a record is in that snapshot exactly when it
    is the joiner's own fresh record or the record of another socket that
    was in the room's set before the join and is still registered. *)
Theorem join_room_snapshot sid key userInfo s :
  ∃ ps, observed sid (join_room sid key userInfo s).2 = [RoomUsers ps] ∧
    ∀ p, p ∈ ps ↔
      p = mkParticipant sid key userInfo ∨
      ∃ id, id ≠ sid ∧ id ∈ default [] (rooms s !! key) ∧
            participants s !! id = Some p.
Proof.
  rewrite join_room_out. eexists. split.
  - rewrite !observed_cons, observed_nil. simpl.
    rewrite decide_True by apply elem_of_singleton_2, eq_refl.
    rewrite decide_False by apply sender_not_in_others.
    reflexivity.
  - intros p. rewrite list_elem_of_omap. split.
    + intros (id & Hid & Hp). apply elem_of_jsset_add in Hid.
      destruct (decide (id = sid)) as [-> | Hne].
      * rewrite lookup_insert_eq in Hp. left. congruence.
      * rewrite lookup_insert_ne in Hp by done. right.
        exists id. destruct Hid as [? | ?]; [done | eauto].
    + intros [-> | (id & Hne & Hid & Hp)].
      * exists sid. split; [apply elem_of_jsset_add; by left |].
        by rewrite lookup_insert_eq.
      * exists id. split; [apply elem_of_jsset_add; by right |].
        by rewrite lookup_insert_ne.
Qed.

(** *** The stored audio and video flags *)

(** C10: whatever booleans the client supplies for [audioEnabled] and
    [videoEnabled], the record stored under the joiner's socket id, which is
    also the record announced to the room in [user-joined], has both flags
    equal to [true]. *)
Theorem join_room_flags_forced sid key uid usr (a v : bool) s :
  let userInfo := {| ui_userId := uid; ui_user := usr;
                     ui_audioEnabled := JBool a; ui_videoEnabled := JBool v |} in
  ∃ p, participants (join_room sid key userInfo s).1 !! sid = Some p ∧
       audioEnabled p = JBool true ∧ videoEnabled p = JBool true ∧
       (join_room sid key userInfo s).2 !! 1 =
         Some (socket_to (join_room sid key userInfo s).1 sid key (UserJoined p)).
Proof.
  intros userInfo. exists (mkParticipant sid key userInfo). repeat split.
  - unfold join_room. simpl. by rewrite lookup_insert_eq.
  - by destruct a.
  - by destruct v.
Qed.

(** *** Departures *)

Lemma leave_room_out sid key s :
  (leave_room sid key s).2 =
  [{| em_to := members s key ∖ {[sid]}; em_ev := UserLeft sid |}].
Proof.
  unfold leave_room, socket_to. simpl. do 2 f_equal.
  change (members (sio_leave sid key s) key ∖ {[sid]} = members s key ∖ {[sid]}).
  rewrite members_sio_leave, decide_True by done.
  apply set_eq. intros x. rewrite !elem_of_difference. tauto.
Qed.

(** One explicit leave is seen exactly once by every other socket of the
    Socket.IO room. *)
Lemma leave_room_notifies_once sid key c s :
  c ∈ members s key → c ≠ sid →
  observed c (leave_room sid key s).2 = [UserLeft sid].
Proof.
  intros Hin Hne. rewrite leave_room_out.
  rewrite observed_cons, observed_nil. simpl.
  rewrite decide_True; [done |].
  rewrite elem_of_difference, elem_of_singleton. done.
Qed.

(** An abrupt close of a registered socket is seen exactly once by every
    other socket of the room the socket joined last. *)
Lemma disconnect_notifies_once sid c p s :
  participants s !! sid = Some p →
  c ∈ members s (meetingKey p) → c ≠ sid →
  observed c (disconnect sid s).2 = [UserLeft sid].
Proof.
  intros Hp Hin Hne. unfold disconnect. simpl. rewrite Hp. simpl.
  rewrite observed_cons, observed_nil. simpl.
  change (members _ (meetingKey p)) with
    (members (sio_leave_all sid s) (meetingKey p)).
  rewrite members_sio_leave_all.
  rewrite decide_True; [done |].
  rewrite !elem_of_difference, elem_of_singleton. done.
Qed.

(** After an explicit leave, the close of the connection is silent: the
    disconnect listener is guarded by the participant record, which the
    leave handler has deleted. *)
Lemma disconnect_after_leave_silent sid key s :
  (disconnect sid (leave_room sid key s).1).2 = [].
Proof.
  unfold disconnect, leave_room. simpl. by rewrite lookup_delete_eq.
Qed.

(** A repeated explicit leave is relayed again: the leave listener does
    not look at the participant record. *)
Lemma leave_room_again_notifies sid key c s :
  c ∈ members s key → c ≠ sid →
  observed c (leave_room sid key (leave_room sid key s).1).2 = [UserLeft sid].
Proof.
  intros Hin Hne. apply leave_room_notifies_once; [| done].
  change (c ∈ members (sio_leave sid key s) key).
  rewrite members_sio_leave, decide_True by done.
  rewrite elem_of_difference, elem_of_singleton. done.
Qed.

(** C2, evaluated where the code departs from it: [a] and [b] are in room
    [r] and [a] sends [leave-room] twice. The leave listener has no guard
    on the participant record, so the second message is relayed as well and
    [b] observes two [user-left] events for [a]. *)
Theorem leave_room_twice_notifies_twice :
  let s0 := (run "t" [Connect "a"; Connect "b";
                      Message "a" (JoinRoom "r" sample_info);
                      Message "b" (JoinRoom "r" sample_info)] init).1 in
  observed "b" (run "t" [Message "a" (LeaveRoom "r");
                         Message "a" (LeaveRoom "r")] s0).2 =
    [UserLeft "a"; UserLeft "a"].
Proof. vm_compute. done. Qed.

(** *** Directed messages *)

Lemma directed_out now sid m to s :
  target m = Some to →
  (handle now sid m s).1 = s ∧
  ∃ ev, (handle now sid m s).2 = [socket_to s sid to ev].
Proof.
  destruct m; simpl; intros [= <-]; (split; [done | eauto]).
Qed.

(** C3, refuted as stated: [r] is a meeting key, not the id of any
    connection and not a key of the participant registry, yet an offer
    addressed to [r] reaches socket [b], a member of that room; the state
    of the relay, which holds no counter, is unchanged. *)
Lemma offer_to_room_key_is_delivered :
  let s0 := (run "t" [Connect "a"; Connect "b";
                      Message "b" (JoinRoom "r" sample_info)] init).1 in
  participants s0 !! "r" = None ∧ ("r" ∉ members s0 "r") ∧
  observed "b" (handle "t" "a" (Offer "r" (JStr "sdp") "r") s0).2 =
    [WebrtcOffer (JStr "sdp") "a" JUndefined] ∧
  (handle "t" "a" (Offer "r" (JStr "sdp") "r") s0).1 = s0.
Proof.
  intros s0. split; [vm_compute; done |]. split; [| split].
  - refine (proj1 (bool_decide_eq_false _) _). vm_compute. done.
  - vm_compute. done.
  - done.
Qed.

(** C3, amended: a directed message whose target names no Socket.IO room
    with a member (so in particular no connected socket) is written to no
    socket at all, the sender included, and leaves the relay state as it
    was. *)
Theorem unroutable_directed_dropped now sid m to s :
  target m = Some to → members s to = ∅ →
  (handle now sid m s).1 = s ∧ ∀ c, observed c (handle now sid m s).2 = [].
Proof.
  intros Ht Hm. destruct (directed_out now sid m to s Ht) as [Hs [ev Hout]].
  split; [done |]. intros c. rewrite Hout, observed_socket_to.
  rewrite decide_False; [done |]. rewrite Hm. intros [Hc _].
  by apply not_elem_of_empty in Hc.
Qed.

Lemma unroutable_directed_dropped_witness :
  members (connect "a" init) "gone" = ∅ ∧
  ((handle "t" "a" (IceCandidate "r" (JStr "cand") "gone") (connect "a" init)).1
     = connect "a" init ∧
   ∀ c, observed c
          (handle "t" "a" (IceCandidate "r" (JStr "cand") "gone")
             (connect "a" init)).2 = []).
Proof.
  split; [vm_compute; done |].
  apply (unroutable_directed_dropped "t" "a" _ "gone"); [reflexivity |].
  vm_compute. done.
Defined.

(** *** Broadcast messages *)

(** C4, refuted as stated: a chat message is written back to its sender. *)
Lemma chat_message_echoed_to_sender :
  let s0 := (run "t" [Connect "a"; Connect "b";
                      Message "a" (JoinRoom "r" sample_info);
                      Message "b" (JoinRoom "r" sample_info)] init).1 in
  observed "a" (handle "t" "a" (Chat "r" (JStr "hi")) s0).2 =
    [ChatMessage (JStr "hi") (JObj [("name", JStr "Anonymous")]) "t"].
Proof. by vm_compute. Qed.

(** C4, amended: a broadcast-type message of a socket with a participant
    record (for [join-room], the record the join stores) yields exactly one
    broadcast emission, and it carries the event that stands for the
    message. Screen-share start and stop and the join and leave events are
    written to every socket of the Socket.IO room named by the message
    except the sender; chat and recording start and stop are written to
    every socket of that room, the sender included. *)
Theorem broadcast_recipients_exact now sid m R p ev s :
  broadcast_recipients s sid m = Some R →
  record_when_relayed now sid m s = Some p →
  relayed_as now sid p m = Some ev →
  filter (λ e, is_broadcast (em_ev e) = true) (handle now sid m s).2 =
    [{| em_to := R; em_ev := ev |}].
Proof.
  intros HR Hp Hev.
  destruct m; simpl in HR; try discriminate; injection HR as <-;
    cbn [record_when_relayed] in Hp; cbn [relayed_as] in Hev;
    injection Hev as <-.
  - (* join-room *)
    change (<[sid := mkParticipant sid key userInfo]> (participants s) !! sid
            = Some p) in Hp.
    rewrite lookup_insert_eq in Hp. injection Hp as <-.
    unfold handle. rewrite join_room_out. rewrite filter_cons_False by (simpl; done).
    rewrite filter_cons_True by (simpl; done). rewrite filter_nil.
    unfold socket_to. do 2 f_equal.
    change (members (sio_join sid key s) key ∖ {[sid]} = members s key ∖ {[sid]}).
    rewrite members_sio_join, decide_True by done.
    apply set_eq. intros x.
    rewrite !elem_of_difference, elem_of_union, elem_of_singleton. tauto.
  - (* leave-room *)
    unfold handle. rewrite leave_room_out.
    by rewrite filter_cons_True by (simpl; done).
  - unfold handle, chat_message. by rewrite Hp.
  - unfold handle, start_screen_share. by rewrite Hp.
  - unfold handle, stop_screen_share. by rewrite Hp.
  - unfold handle, start_recording. by rewrite Hp.
  - unfold handle, stop_recording. by rewrite Hp.
Qed.

Lemma broadcast_recipients_exact_witness :
  let p := mkParticipant "sock-e" "r" info_e in
  let ev := ChatMessage (JStr "hi") (user p) "t" in
  broadcast_recipients room_with_e_j "sock-e" (Chat "r" (JStr "hi")) =
    Some {["sock-e"; "sock-j"]} ∧
  record_when_relayed "t" "sock-e" (Chat "r" (JStr "hi")) room_with_e_j = Some p ∧
  relayed_as "t" "sock-e" p (Chat "r" (JStr "hi")) = Some ev ∧
  filter (λ e, is_broadcast (em_ev e) = true)
    (handle "t" "sock-e" (Chat "r" (JStr "hi")) room_with_e_j).2 =
    [{| em_to := {["sock-e"; "sock-j"]}; em_ev := ev |}].
Proof.
  intros p ev.
  split; [vm_compute; done |]. split; [vm_compute; done |].
  split; [reflexivity |].
  apply (broadcast_recipients_exact "t" "sock-e" (Chat "r" (JStr "hi"))
           {["sock-e"; "sock-j"]} p ev room_with_e_j).
  - vm_compute. done.
  - vm_compute. done.
  - reflexivity.
Defined.

End RelayFacts.

(** ** Properties of the client *)

Section ClientFacts.
Import Client.

Implicit Types (s : State) (p : PeerConnection).

(** *** Role assignment *)

Lemma emit_sent m s :
  sent (emit m s) = if socket s then (sent s ++ [m])%list else sent s.
Proof. unfold emit. by destruct (socket s). Qed.

(** In the first component a connection made without the initiator flag
    sends nothing. *)
Lemma createPeerConnection_responder_silent key sid s :
  sent (MeetingRoom.createPeerConnection key sid false s).1 = sent s.
Proof.
  unfold MeetingRoom.createPeerConnection.
  by destruct (peerConnections s !! sid).
Qed.

(** In the first component a new connection made with the initiator flag
    sends one offer, addressed to the remote socket. *)
Lemma createPeerConnection_initiator_offers key sid s :
  peerConnections s !! sid = None → socket s = true →
  sent (MeetingRoom.createPeerConnection key sid true s).1 =
    (sent s ++ [Offer key (createOffer (nextPc s)) sid])%list.
Proof.
  intros Hnone Hsock. unfold MeetingRoom.createPeerConnection.
  rewrite Hnone. simpl. rewrite emit_sent. simpl. by rewrite Hsock.
Qed.

(** In the first component a [user-joined] event for another user sends
    nothing and schedules a connection without the initiator flag. *)
Lemma on_user_joined_schedules_responder me participant s :
  js_strict_eq (userId participant) me = false →
  sent (MeetingRoom.on_user_joined me participant s) = sent s ∧
  timers (MeetingRoom.on_user_joined me participant s) =
    (timers s ++ [(clock s + 500,
                   TCreatePeerConnection (socketId participant) false)])%list.
Proof.
  intros Hne. unfold MeetingRoom.on_user_joined. rewrite Hne. done.
Qed.

(** The first component on the join scenario: [sock-e] is in room [r] and
    [sock-j] joins. Half a second after the relay's events arrive, the
    joiner has sent one offer to [sock-e], and [sock-e] has sent nothing. *)
Lemma first_component_roles_asymmetric :
  let out := (Relay.handle "t" "sock-j" (JoinRoom "r" info_j) room_with_e).2 in
  (sent <$> (MeetingRoom.advance "r" 5 500
               (MeetingRoom.feed "r" (JStr "u-j") (observed "sock-j" out)
                  (mounted None)))) =
    Some [Offer "r" (createOffer 0) "sock-e"] ∧
  (sent <$> (MeetingRoom.advance "r" 5 500
               (MeetingRoom.feed "r" (JStr "u-e") (observed "sock-e" out)
                  (mounted None)))) = Some [].
Proof. split; vm_compute; done. Qed.

(** C5, evaluated where the code departs from it: the second component on
    the same scenario. The joiner [sock-j] offers to [sock-e] on receiving
    the snapshot, and [sock-e] offers to [sock-j] on receiving
    [user-joined]: both sides of the pair initiate. *)
Theorem second_component_both_sides_offer :
  let out := (Relay.handle "t" "sock-j" (JoinRoom "r" info_j) room_with_e).2 in
  sent (MeetingRoom2.feed "r" (JStr "u-j") (observed "sock-j" out)
          (mounted None)) =
    [Offer "r" (createOffer 0) "sock-e"] ∧
  sent (MeetingRoom2.feed "r" (JStr "u-e") (observed "sock-e" out)
          (mounted None)) =
    [Offer "r" (createOffer 0) "sock-j"].
Proof. split; vm_compute; done. Qed.

(** *** One connection per remote socket *)

(** In the first component, asking for a connection that exists returns
    it and changes nothing. *)
Lemma createPeerConnection_existing key sid isInitiator pc s :
  peerConnections s !! sid = Some pc →
  MeetingRoom.createPeerConnection key sid isInitiator s = (s, Some pc).
Proof. intros H. unfold MeetingRoom.createPeerConnection. by rewrite H. Qed.

(** C7, evaluated where the code departs from it: the second component
    receives [user-joined] twice for the same remote socket. The second
    call of [createPeerConnection] stores a new connection under the
    socket id; the first one is no longer reachable and was never closed,
    so two open connections toward [sock-b] exist. *)
Theorem second_component_replaces_connection :
  let s1 := MeetingRoom2.on_event "r" (JStr "u-a") (UserJoined part_b)
              (mounted None) in
  let s2 := MeetingRoom2.on_event "r" (JStr "u-a") (UserJoined part_b) s1 in
  peerConnections s1 !! "sock-b" = Some 0 ∧
  peerConnections s2 !! "sock-b" = Some 1 ∧
  closed <$> heap s2 !! 0 = Some false ∧
  closed <$> heap s2 !! 1 = Some false.
Proof. repeat split; vm_compute; done. Qed.

(** *** The timer queue *)

Lemma earliest_spec (l : list (nat * Task)) due :
  MeetingRoom.earliest l = Some due →
  (∃ task, (due, task) ∈ l) ∧ ∀ d task, (d, task) ∈ l → (due ≤ d)%nat.
Proof.
  revert due. induction l as [| [d0 k0] l IH]; intros due; simpl; [done |].
  destruct (MeetingRoom.earliest l) as [d' |] eqn:He.
  - destruct (IH d' eq_refl) as [[k' Hk'] Hmin].
    destruct (decide (d' < d0)%nat) as [Hlt | Hge]; intros [= <-].
    + split; [exists k'; by apply list_elem_of_further |].
      intros d k [[= -> ->] | Hin]%elem_of_cons; [lia | eauto].
    + split; [exists k0; apply list_elem_of_here |].
      intros d k [[= -> ->] | Hin]%elem_of_cons; [lia |].
      apply Hmin in Hin. lia.
  - intros [= <-]. destruct l as [| [d1 k1] l'].
    + split; [exists k0; apply list_elem_of_here |].
      intros d k [[= -> ->] | Hin]%elem_of_cons; [lia |].
      by apply not_elem_of_nil in Hin.
    + simpl in He. by destruct (MeetingRoom.earliest l').
Qed.

Lemma take_first_spec due (l : list (nat * Task)) task rest :
  MeetingRoom.take_first due l = Some (task, rest) →
  ∃ l1 l2, l = (l1 ++ (due, task) :: l2)%list ∧ rest = (l1 ++ l2)%list ∧
           ∀ d k, (d, k) ∈ l1 → d ≠ due.
Proof.
  revert rest. induction l as [| [d0 k0] l IH]; intros rest; simpl; [done |].
  destruct (decide (d0 = due)) as [-> | Hne].
  - intros [= <- <-]. exists [], l. split; [done |]. split; [done |].
    intros d k Hin. by apply not_elem_of_nil in Hin.
  - destruct (MeetingRoom.take_first due l) as [[task' rest'] |]; [| done].
    intros [= <- <-]. destruct (IH _ eq_refl) as (l1 & l2 & -> & -> & Hl1).
    exists ((d0, k0) :: l1), l2. split; [done |]. split; [done |].
    intros d k [[= -> ->] | Hin]%elem_of_cons; [done | eauto].
Qed.

(** The timer taken is due, no timer is due earlier, and it is the first
    registered among those with its due time. *)
Lemma pop_due_spec t (l : list (nat * Task)) due task rest :
  MeetingRoom.pop_due t l = Some (due, task, rest) →
  (due ≤ t)%nat ∧ (∀ d k, (d, k) ∈ l → (due ≤ d)%nat) ∧
  ∃ l1 l2, l = (l1 ++ (due, task) :: l2)%list ∧ rest = (l1 ++ l2)%list ∧
           ∀ d k, (d, k) ∈ l1 → d ≠ due.
Proof.
  unfold MeetingRoom.pop_due.
  destruct (MeetingRoom.earliest l) as [due' |] eqn:He; [| done].
  destruct (decide (due' ≤ t)%nat) as [Hle | Hgt]; [| done].
  destruct (MeetingRoom.take_first due' l) as [[task' rest'] |] eqn:Ht; [| done].
  intros [= <- <- <-]. split; [done |].
  split; [apply (earliest_spec l due' He) |]. by apply take_first_spec.
Qed.

(** When no timer is taken, none is due. *)
Lemma pop_due_none t (l : list (nat * Task)) :
  MeetingRoom.pop_due t l = None → ∀ d k, (d, k) ∈ l → (t < d)%nat.
Proof.
  unfold MeetingRoom.pop_due. intros Hpop d k Hin.
  destruct (MeetingRoom.earliest l) as [due |] eqn:He.
  - destruct (earliest_spec l due He) as [[task Htask] Hmin].
    destruct (decide (due ≤ t)%nat) as [Hle | Hgt].
    + exfalso. clear Hmin He Hin. induction l as [| [d0 k0] l IH]; simpl in *.
      * by apply not_elem_of_nil in Htask.
      * destruct (decide (d0 = due)) as [-> | Hne]; [done |].
        apply elem_of_cons in Htask as [[= -> ->] | Htask]; [done |].
        destruct (MeetingRoom.take_first due l) as [[task' rest'] |]; [done |].
        by apply IH.
    + apply Hmin in Hin. lia.
  - destruct l as [| [d0 k0] l']; [by apply not_elem_of_nil in Hin |].
    simpl in He. by destruct (MeetingRoom.earliest l').
Qed.

(** [toggleScreenShare] starts the share when none is on and stops it
    otherwise. *)
Lemma toggleScreenShare_cases key display camera s :
  toggleScreenShare key display camera s =
  if isScreenSharing s then stopScreenShare key camera s
  else startScreenShare key display s.
Proof. unfold toggleScreenShare. by destruct (isScreenSharing s). Qed.

(** *** ICE candidates *)

(** In the first component a candidate is passed to [addIceCandidate] only
    on a connection that has a remote description; otherwise nothing is
    applied and one retry is scheduled a second later. *)
Lemma handleIceCandidate_cases candidate from s :
  (∃ pc p, peerConnections s !! from = Some pc ∧ heap s !! pc = Some p ∧
           is_Some (remoteDescription p) ∧
           MeetingRoom.handleIceCandidate candidate from s =
             update_pc pc (addIceCandidate candidate) s) ∨
  (MeetingRoom.ready s from = None ∧
   MeetingRoom.handleIceCandidate candidate from s =
     setTimeout (THandleIceCandidate candidate from) 1000 s).
Proof.
  unfold MeetingRoom.handleIceCandidate, MeetingRoom.ready.
  destruct (peerConnections s !! from) as [pc |] eqn:Hpc; [| by right].
  destruct (heap s !! pc) as [p |] eqn:Hp; [| by right].
  destruct (remoteDescription p) as [d |] eqn:Hd; [| by right].
  left. exists pc, p. rewrite Hd. eauto.
Qed.

(** In the second component a candidate that arrives before the remote
    description is lost: the state is unchanged and nothing is scheduled. *)
Lemma second_component_drops_early_candidate candidate from pc p s :
  peerConnections s !! from = Some pc → heap s !! pc = Some p →
  remoteDescription p = None →
  MeetingRoom2.handleIceCandidate candidate from s = s.
Proof.
  intros Hpc Hp Hd. unfold MeetingRoom2.handleIceCandidate, update_pc.
  rewrite Hpc, alter_id; [by destruct s |].
  intros p' Hp'. rewrite Hp in Hp'. injection Hp' as <-.
  unfold addIceCandidate_unchecked. by rewrite Hd.
Qed.

(** C6, evaluated where the code departs from it: the first component
    learns of [sock-r] at time 0 and offers at 500; candidates [c1] and [c2]
    arrive at 600 and 1100, the answer at 1800. The retry of [c1] at 1600
    finds no remote description and is put off to 2600, the retry of [c2]
    at 2100 succeeds: [c2] is applied before [c1]. No timer is left at the
    end of the run. *)
Theorem ice_candidates_applied_out_of_order :
  ∃ s p,
    (MeetingRoom.simulate "r" (JStr "u-l") 10 early_candidates (mounted None)
       ≫= MeetingRoom.advance "r" 10 5000) = Some s ∧
    timers s = [] ∧
    peerConnections s !! "sock-r" = Some 0 ∧
    heap s !! 0 = Some p ∧
    candidates p = [JStr "c2"; JStr "c1"].
Proof.
  eexists _, _. split; [vm_compute; reflexivity |].
  repeat split; vm_compute; done.
Qed.

(** *** Track substitution *)

Lemma set_heap_heap s : set_heap (heap s) s = s.
Proof. by destruct s. Qed.

Lemma foldl_update_pc_frame f (l : list (string * nat)) s :
  foldl (λ st kv, update_pc kv.2 f st) s l =
  set_heap (heap (foldl (λ st kv, update_pc kv.2 f st) s l)) s.
Proof.
  revert s. induction l as [| kv l IH]; intros s; simpl.
  - by rewrite set_heap_heap.
  - rewrite IH at 1. done.
Qed.


Lemma elem_of_range (m : gmap string nat) id :
  id ∈ (map_to_list m).*2 ↔ ∃ sid, m !! sid = Some id.
Proof.
  rewrite list_elem_of_fmap. split.
  - intros ([sid pc] & -> & Hin). exists sid. by apply elem_of_map_to_list in Hin.
  - intros [sid Hsid]. exists (sid, id). split; [done |].
    by apply elem_of_map_to_list.
Qed.


Lemma forEach_pc_frame f s : forEach_pc f s = set_heap (heap (forEach_pc f s)) s.
Proof. apply foldl_update_pc_frame. Qed.






Lemma substitute_frame key (stream : MediaStream) s s' :
  s' = startScreenShare key (Some stream) s ∨
  s' = stopScreenShare key (Some stream) s →
  peerConnections s' = peerConnections s ∧ timers s' = timers s ∧
  heap s' = heap (forEach_pc (replaceVideo (head (getVideoTracks stream))) s) ∧
  (∀ m, m ∈ sent s' →
        m ∈ sent s ∨ m = StartScreenShare key ∨ m = StopScreenShare key).
Proof.
  set (f := replaceVideo (head (getVideoTracks stream))).
  pose proof (forEach_pc_frame f s) as Hfr.
  intros [-> | ->]; unfold startScreenShare, stopScreenShare; fold f;
    rewrite Hfr; set (h := heap (forEach_pc f s)); unfold emit; simpl.
  - destruct (socket s), (head (getVideoTracks stream)); simpl;
      (repeat split; [done..|]); intros m Hm;
      rewrite ?elem_of_app, ?list_elem_of_singleton in Hm; tauto.
  - destruct (socket s); simpl;
      (repeat split; [done..|]); intros m Hm;
      rewrite ?elem_of_app, ?list_elem_of_singleton in Hm; tauto.
Qed.





(** *** Teardown *)








(** Which tracks [cleanup] reaches depends on the render it belongs to. *)
Lemma andThen_stopped (a b : State → State * bool) s :
  (∀ st, stopped (a st).1 = stopped st) →
  (∀ st, stopped (b st).1 = stopped st) →
  stopped (andThen a b s).1 = stopped s.
Proof.
  intros Ha Hb. unfold andThen. pose proof (Ha s) as Hs.
  destruct (a s) as [s1 []]; [done |]. by rewrite Hb.
Qed.

Lemma forEach_stopped {A} (body : A → State → State * bool) (l : list A) s :
  (∀ x st, stopped (body x st).1 = stopped st) →
  stopped (forEach body l s).1 = stopped s.
Proof.
  intros Hbody. revert s. induction l as [| x l IH]; intros s; [done |].
  cbn [forEach]. by apply andThen_stopped.
Qed.

Lemma call_stopped throws c (effect : State → State) s :
  (∀ st, stopped (effect st) = stopped st) →
  stopped (call throws c effect s).1 = stopped s.
Proof. intros He. unfold call. destruct (throws c); [done | apply He]. Qed.

(** The [cleanup] that React runs at unmount calls [stop()] on no track,
    whatever stream the component holds by then and whatever raises. *)
Lemma unmount_stops_no_track key throws s :
  stopped (unmount key throws s).1 = stopped s.
Proof.
  unfold unmount, cleanup.
  apply andThen_stopped; [intros st; reflexivity |]. clear s.
  intros s. apply andThen_stopped; clear s.
  - intros s. unfold close_all.
    apply andThen_stopped; [| intros st; reflexivity].
    intros st. apply forEach_stopped. intros kv st'.
    apply call_stopped. intros st''. reflexivity.
  - intros s. apply andThen_stopped; clear s; intros s.
    + unfold leaveRoom. destruct (bool_decide (key = "")); [reflexivity |].
      destruct (socket s); [| reflexivity].
      apply call_stopped. intros st. reflexivity.
    + unfold disconnect. destruct (socket s); [| reflexivity].
      apply call_stopped. intros st. reflexivity.
Qed.

(** A screen share that was started and stopped leaves the first camera
    stream and the screen stream in no variable of the component: the Leave
    button then stops the tracks of the second camera stream only. *)
Lemma replaced_streams_keep_running :
  let s := stopScreenShare "r" (Some second_camera_stream)
             (startScreenShare "r" (Some display_stream)
                (mounted (Some camera_stream))) in
  stopped (leaveMeeting "r" never_throws s).1 = {[11%nat; 12%nat]}.
Proof. by vm_compute. Qed.

(** *** Invariants of the connection map *)

Lemma NoDup_fmap_inj {A B} (f : A → B) (l : list A) x y :
  NoDup (f <$> l) → x ∈ l → y ∈ l → f x = f y → x = y.
Proof.
  intros Hnd [i Hi]%list_elem_of_lookup [j Hj]%list_elem_of_lookup Hxy.
  assert (i = j) as ->.
  { apply (NoDup_lookup (f <$> l) i j (f x)); [done | |].
    - by rewrite list_lookup_fmap, Hi.
    - by rewrite list_lookup_fmap, Hj, Hxy. }
  congruence.
Qed.

Lemma wf_spec s :
  wf s ↔
  (∀ sid pc, peerConnections s !! sid = Some pc → (pc < nextPc s)%nat) ∧
  (∀ sid1 sid2 pc, peerConnections s !! sid1 = Some pc →
                   peerConnections s !! sid2 = Some pc → sid1 = sid2).
Proof.
  unfold wf, connections. split.
  - intros [Hnd Hall]. split.
    + intros sid pc Hpc. rewrite Forall_forall in Hall. apply Hall.
      apply elem_of_range. eauto.
    + intros sid1 sid2 pc H1 H2.
      assert ((sid1, pc) = (sid2, pc)) as [=]; [| done].
      apply (NoDup_fmap_inj snd (map_to_list (peerConnections s)));
        [done | | | done]; by apply elem_of_map_to_list.
  - intros [Hlt Hinj]. split.
    + apply NoDup_fmap_2_strong; [| apply NoDup_map_to_list].
      intros [sid1 pc1] [sid2 pc2] H1 H2. simpl. intros <-.
      apply elem_of_map_to_list in H1, H2. f_equal. eauto.
    + apply Forall_forall. intros pc [sid Hsid]%elem_of_range. eauto.
Qed.

Lemma wf_ext s s' :
  peerConnections s' = peerConnections s → nextPc s' = nextPc s →
  wf s → wf s'.
Proof. unfold wf, connections. intros -> ->. done. Qed.

Lemma tracked_ext s s' :
  heap s' = heap s → peerConnections s' = peerConnections s →
  tracked s → tracked s'.
Proof. unfold tracked. intros -> ->. done. Qed.

(** Closes the goal [wf s' ∧ tracked s'] when [s'] has the heap, the
    connection map and the allocation counter of [s]. *)
Ltac frame_inv s :=
  split; [by apply (wf_ext s) | by apply (tracked_ext s)].

Lemma wf_mounted stream : wf (mounted stream).
Proof. apply wf_spec. split; simpl; intros *; by rewrite lookup_empty. Qed.

Lemma tracked_mounted stream : tracked (mounted stream).
Proof. intros id p. simpl. by rewrite lookup_empty. Qed.

Lemma wf_emit m s : wf s → wf (emit m s).
Proof. apply wf_ext; unfold emit; by destruct (socket s). Qed.

Lemma tracked_emit m s : tracked s → tracked (emit m s).
Proof. apply tracked_ext; unfold emit; by destruct (socket s). Qed.

Lemma wf_update_pc pc f s : wf s → wf (update_pc pc f s).
Proof. by apply wf_ext. Qed.

Lemma tracked_update_pc pc f s :
  (∀ p, closed (f p) = closed p) → tracked s → tracked (update_pc pc f s).
Proof.
  intros Hf Htr id p'. simpl. destruct (decide (pc = id)) as [-> | Hne].
  - rewrite lookup_alter_eq. destruct (heap s !! id) as [p |] eqn:Hp; [| done].
    simpl. intros [= <-] Hcl. rewrite Hf in Hcl. eauto.
  - rewrite lookup_alter_ne by done. apply Htr.
Qed.

Lemma wf_insert_fresh sid s s' :
  peerConnections s' = <[sid := nextPc s]> (peerConnections s) →
  nextPc s' = S (nextPc s) → wf s → wf s'.
Proof.
  rewrite !wf_spec. intros Hpcs Hnext [Hlt Hinj]. split.
  - intros sid' pc. rewrite Hpcs, Hnext, lookup_insert.
    case_decide; [intros [= <-]; lia |]. intros H'%Hlt. lia.
  - intros sid1 sid2 pc. rewrite Hpcs, !lookup_insert.
    repeat case_decide; subst; try done.
    + intros [= <-] H'%Hlt. lia.
    + intros H'%Hlt [= <-]. lia.
    + apply Hinj.
Qed.

Lemma wf_delete sid s s' :
  peerConnections s' = delete sid (peerConnections s) →
  nextPc s' = nextPc s → wf s → wf s'.
Proof.
  rewrite !wf_spec. intros Hpcs Hnext [Hlt Hinj]. split.
  - intros sid' pc. rewrite Hpcs, Hnext, lookup_delete.
    case_decide; [done |]. apply Hlt.
  - intros sid1 sid2 pc. rewrite Hpcs, !lookup_delete.
    repeat case_decide; try done. apply Hinj.
Qed.

Lemma wf_on_user_left sid s : wf s → wf (on_user_left sid s).
Proof.
  intros Hwf. unfold on_user_left. simpl.
  destruct (peerConnections s !! sid) as [pc |] eqn:Hpc.
  - by apply (wf_delete sid s).
  - by apply (wf_ext s).
Qed.

Lemma tracked_on_user_left sid s : wf s → tracked s → tracked (on_user_left sid s).
Proof.
  intros [_ Hinj]%wf_spec Htr. unfold on_user_left. simpl.
  destruct (peerConnections s !! sid) as [pc |] eqn:Hpc.
  - intros id p'. simpl. destruct (decide (pc = id)) as [-> | Hne].
    + rewrite lookup_alter_eq. destruct (heap s !! id); [| done]. simpl.
      by intros [= <-].
    + rewrite lookup_alter_ne by done. intros Hp Hcl.
      destruct (Htr id p' Hp Hcl) as [sid' Hsid']. exists sid'.
      rewrite lookup_delete_ne; [done |]. intros ->. congruence.
  - by apply (tracked_ext s).
Qed.

Lemma wf_handleAnswer answer from s : wf s → wf (handleAnswer answer from s).
Proof.
  intros Hwf. unfold handleAnswer. destruct (peerConnections s !! from); [| done].
  by apply wf_update_pc.
Qed.

Lemma tracked_handleAnswer answer from s :
  tracked s → tracked (handleAnswer answer from s).
Proof.
  intros Htr. unfold handleAnswer. destruct (peerConnections s !! from); [| done].
  by apply tracked_update_pc.
Qed.

Lemma wf_forEach_pc f s : wf s → wf (forEach_pc f s).
Proof. rewrite forEach_pc_frame. by apply wf_ext. Qed.

Lemma wf_startScreenShare key display s : wf s → wf (startScreenShare key display s).
Proof.
  intros Hwf. destruct display as [stream |]; [| done].
  destruct (substitute_frame key stream s _ (or_introl eq_refl)) as (Hp & _).
  apply (wf_ext s); [done | | done].
  unfold startScreenShare. rewrite (forEach_pc_frame _ s). unfold emit. simpl.
  by destruct (socket s), (head (getVideoTracks stream)).
Qed.

Lemma wf_stopScreenShare key camera s : wf s → wf (stopScreenShare key camera s).
Proof.
  intros Hwf. destruct camera as [stream |]; [| done].
  destruct (substitute_frame key stream s _ (or_intror eq_refl)) as (Hp & _).
  apply (wf_ext s); [done | | done].
  unfold stopScreenShare. rewrite (forEach_pc_frame _ s). unfold emit. simpl.
  by destruct (socket s).
Qed.

(** The first component. *)

Lemma wf_createPeerConnection key sid isInitiator s :
  wf s → wf (MeetingRoom.createPeerConnection key sid isInitiator s).1.
Proof.
  intros Hwf. unfold MeetingRoom.createPeerConnection.
  destruct (peerConnections s !! sid) as [pc |] eqn:Hpc; [done |]. simpl.
  apply (wf_insert_fresh sid s); [| | done];
    destruct isInitiator; unfold emit; simpl; by destruct (socket s).
Qed.

Lemma tracked_createPeerConnection key sid isInitiator s :
  tracked s → tracked (MeetingRoom.createPeerConnection key sid isInitiator s).1.
Proof.
  intros Htr. unfold MeetingRoom.createPeerConnection.
  destruct (peerConnections s !! sid) as [pc |] eqn:Hpc; [done |]. simpl.
  set (s2 := set_peerConnections _ _).
  assert (tracked s2) as Htr2.
  { intros id p. unfold s2. simpl.
    destruct (decide (nextPc s = id)) as [<- | Hne].
    - intros _ _. exists sid. by rewrite lookup_insert_eq.
    - rewrite lookup_insert_ne by done. intros Hp Hcl.
      destruct (Htr id p Hp Hcl) as [sid' Hsid'].
      exists sid'. rewrite lookup_insert_ne; [done |]. intros ->. congruence. }
  destruct isInitiator; [| done].
  apply tracked_emit. by apply tracked_update_pc.
Qed.

Lemma inv_handleOffer key offer from s :
  wf s ∧ tracked s →
  wf (MeetingRoom.handleOffer key offer from s) ∧
  tracked (MeetingRoom.handleOffer key offer from s).
Proof.
  intros [Hwf Htr]. unfold MeetingRoom.handleOffer.
  pose proof (wf_createPeerConnection key from false s Hwf) as Hwf'.
  pose proof (tracked_createPeerConnection key from false s Htr) as Htr'.
  destruct (peerConnections s !! from) as [pc |] eqn:Hpc.
  - split; [by apply wf_emit, wf_update_pc, wf_update_pc |].
    by apply tracked_emit, tracked_update_pc, tracked_update_pc.
  - destruct (MeetingRoom.createPeerConnection key from false s) as [s1 [pc |]];
      simpl in *; [| done].
    split; [by apply wf_emit, wf_update_pc, wf_update_pc |].
    by apply tracked_emit, tracked_update_pc, tracked_update_pc.
Qed.

Lemma inv_handleIceCandidate candidate from s :
  wf s ∧ tracked s →
  wf (MeetingRoom.handleIceCandidate candidate from s) ∧
  tracked (MeetingRoom.handleIceCandidate candidate from s).
Proof.
  intros [Hwf Htr]. unfold MeetingRoom.handleIceCandidate.
  destruct (MeetingRoom.ready s from).
  - split; [by apply wf_update_pc | by apply tracked_update_pc].
  - frame_inv s.
Qed.

Lemma on_room_users_frame me users s :
  heap (MeetingRoom.on_room_users me users s) = heap s ∧
  peerConnections (MeetingRoom.on_room_users me users s) = peerConnections s ∧
  nextPc (MeetingRoom.on_room_users me users s) = nextPc s ∧
  sent (MeetingRoom.on_room_users me users s) = sent s.
Proof.
  unfold MeetingRoom.on_room_users. simpl.
  generalize (filter (λ u, js_strict_eq (userId u) me = false) users).
  intros l. revert s. induction l as [| u l IH]; intros s; [done |].
  simpl. by destruct (IH (setTimeout (TCreatePeerConnection (socketId u) true) 500 s))
    as (-> & -> & -> & ->).
Qed.

(** Every listener and every timer callback of the first component keeps
    the invariant: no connection object is stored under two socket ids, and
    every open connection object is the one stored for some socket id. So
    at most one open connection per remote socket exists at any time. *)
Lemma inv_on_event key me ev s :
  wf s ∧ tracked s →
  wf (MeetingRoom.on_event key me ev s) ∧
  tracked (MeetingRoom.on_event key me ev s).
Proof.
  intros [Hwf Htr]. destruct ev; simpl.
  - destruct (on_room_users_frame me roomParticipants s) as (Hh & Hp & Hn & _).
    frame_inv s.
  - unfold MeetingRoom.on_user_joined.
    destruct (js_strict_eq (userId p) me); [done |].
    frame_inv s.
  - split; [by apply wf_on_user_left | by apply tracked_on_user_left].
  - by apply inv_handleOffer.
  - split; [by apply wf_handleAnswer | by apply tracked_handleAnswer].
  - by apply inv_handleIceCandidate.
  - done.
  - frame_inv s.
  - frame_inv s.
  - done.
  - done.
Qed.

Lemma inv_run_task key task s :
  wf s ∧ tracked s →
  wf (MeetingRoom.run_task key task s) ∧ tracked (MeetingRoom.run_task key task s).
Proof.
  intros [Hwf Htr]. destruct task; simpl.
  - split; [by apply wf_createPeerConnection | by apply tracked_createPeerConnection].
  - by apply inv_handleIceCandidate.
Qed.

Lemma inv_advance key fuel t s s' :
  MeetingRoom.advance key fuel t s = Some s' →
  wf s ∧ tracked s → wf s' ∧ tracked s'.
Proof.
  revert s. induction fuel as [| fuel IH]; intros s; simpl.
  - destruct (MeetingRoom.pop_due t (timers s)) as [[[due task] rest] |]; [done |].
    intros [= <-] [Hwf Htr].
    frame_inv s.
  - destruct (MeetingRoom.pop_due t (timers s)) as [[[due task] rest] |].
    + intros Hadv [Hwf Htr]. apply (IH _ Hadv). apply inv_run_task.
      frame_inv s.
    + intros [= <-] [Hwf Htr].
      frame_inv s.
Qed.

Lemma inv_simulate key me fuel trace s s' :
  MeetingRoom.simulate key me fuel trace s = Some s' →
  wf s ∧ tracked s → wf s' ∧ tracked s'.
Proof.
  revert s. induction trace as [| [t ev] trace IH]; intros s; simpl.
  - by intros [= <-].
  - destruct (MeetingRoom.advance key fuel t s) as [s1 |] eqn:Hadv; [| done].
    intros Hsim Hinv. apply (IH _ Hsim). apply inv_on_event.
    by apply (inv_advance key fuel t s).
Qed.

(** The second component keeps the first half only. *)

Lemma wf_createPeerConnection2 key sid isInitiator s :
  wf s → wf (MeetingRoom2.createPeerConnection key sid isInitiator s).1.
Proof.
  intros Hwf. unfold MeetingRoom2.createPeerConnection. simpl.
  apply (wf_insert_fresh sid s); [| | done];
    destruct isInitiator; unfold emit; simpl; by destruct (socket s).
Qed.

Lemma wf_on_event2 key me ev s :
  wf s → wf (MeetingRoom2.on_event key me ev s).
Proof.
  intros Hwf. destruct ev; simpl; [| | | | | | done | | | done | done].
  - unfold MeetingRoom2.on_room_users.
    set (l := filter (λ u, js_strict_eq (userId u) me = false) roomParticipants).
    apply (wf_ext (foldl (λ st u, (MeetingRoom2.createPeerConnection key
                                     (socketId u) true st).1) s l)); [done..|].
    clearbody l. revert s Hwf. induction l as [| u l IH]; intros s Hwf; [done |].
    cbn [foldl]. apply IH. by apply wf_createPeerConnection2.
  - unfold MeetingRoom2.on_user_joined.
    destruct (js_strict_eq (userId p) me); [done |].
    apply wf_createPeerConnection2. by apply (wf_ext s).
  - by apply wf_on_user_left.
  - unfold MeetingRoom2.handleOffer.
    pose proof (wf_createPeerConnection2 key from false s Hwf) as Hwf'.
    destruct (peerConnections s !! from) as [pc |] eqn:Hpc.
    + by apply wf_emit, wf_update_pc, wf_update_pc.
    + destruct (MeetingRoom2.createPeerConnection key from false s) as [s1 [pc |]];
        simpl in *; [| done].
      by apply wf_emit, wf_update_pc, wf_update_pc.
  - by apply wf_handleAnswer.
  - unfold MeetingRoom2.handleIceCandidate.
    destruct (peerConnections s !! from) as [pc |]; [| done].
    by apply wf_update_pc.
  - by apply (wf_ext s).
  - by apply (wf_ext s).
Qed.

Lemma wf_in_call : wf in_call.
Proof. apply wf_createPeerConnection, wf_mounted. Qed.


End ClientFacts.

(** ** Further properties of the relay *)

Section RelayRegistry.
Import Relay.

Implicit Types (s : State) (sid key c : string) (out : list Emission).

Lemma rooms_remove_lookup key sid (r : gmap string (list string)) k :
  rooms_remove key sid r !! k =
  if decide (k = key) then
    match r !! key with
    | Some set =>
        if decide (jsset_delete sid set = []) then None
        else Some (jsset_delete sid set)
    | None => None
    end
  else r !! k.
Proof.
  unfold rooms_remove. destruct (r !! key) as [set |] eqn:Hset.
  - case_bool_decide as Hlen.
    + apply length_zero_iff_nil in Hlen.
      rewrite lookup_delete. destruct (decide (k = key)) as [-> | Hne].
      * rewrite decide_True by done. by rewrite decide_True.
      * by rewrite decide_False by done.
    + rewrite lookup_insert. destruct (decide (k = key)) as [-> | Hne].
      * rewrite decide_True by done. rewrite decide_False; [done |].
        intros Hnil. apply Hlen. by rewrite Hnil.
      * by rewrite decide_False by done.
  - destruct (decide (k = key)) as [-> | Hne]; done.
Qed.

Lemma join_room_rooms_other sid key userInfo s k :
  k ≠ key → rooms (join_room sid key userInfo s).1 !! k = rooms s !! k.
Proof.
  intros Hne. unfold join_room. simpl. rewrite lookup_insert_ne by done.
  case_bool_decide; [done |]. by rewrite lookup_insert_ne.
Qed.

Lemma jsset_add_not_nil x (l : list string) : jsset_add x l ≠ [].
Proof.
  intros Hnil. assert (x ∈ jsset_add x l) as Hin by (apply elem_of_jsset_add; by left).
  rewrite Hnil in Hin. by apply not_elem_of_nil in Hin.
Qed.

Lemma join_room_participants sid key userInfo s :
  participants (join_room sid key userInfo s).1 =
  <[sid := mkParticipant sid key userInfo]> (participants s).
Proof. done. Qed.

Lemma disconnect_state sid s :
  (disconnect sid s).1 =
  {| rooms := match participants s !! sid with
              | Some p => rooms_remove (meetingKey p) sid (rooms s)
              | None => rooms s
              end;
     participants := delete sid (participants s);
     adapter := adapter (sio_leave_all sid s) |}.
Proof. unfold disconnect. simpl. by destruct (participants s !! sid). Qed.

(** Every handler keeps the room registry free of empty rooms. *)
Lemma rooms_nonempty_step now i s :
  rooms_nonempty s → rooms_nonempty (step now i s).1.
Proof.
  intros Hinv. destruct i as [sid | sid m | sid]; cbn [step handle].
  - done.
  - destruct m; cbn [step handle]; try done.
    + intros k set. destruct (decide (k = key)) as [-> | Hne].
      * rewrite join_room_rooms_lookup. intros [= <-]. apply jsset_add_not_nil.
      * rewrite join_room_rooms_other by done. apply Hinv.
    + intros k set. unfold leave_room. simpl. rewrite rooms_remove_lookup.
      destruct (decide (k = key)) as [-> | Hne]; [| apply Hinv].
      destruct (rooms s !! key); [| done].
      destruct (decide _); [done |]. by intros [= <-].
    + unfold chat_message. by destruct (participants s !! sid).
    + unfold start_screen_share. by destruct (participants s !! sid).
    + unfold stop_screen_share. by destruct (participants s !! sid).
    + unfold start_recording. by destruct (participants s !! sid).
    + unfold stop_recording. by destruct (participants s !! sid).
  - rewrite disconnect_state. cbn [fst rooms].
    destruct (participants s !! sid) as [p |]; [| done].
    intros k set. cbn [rooms]. rewrite rooms_remove_lookup.
    destruct (decide (k = meetingKey p)) as [-> | Hne]; [| apply Hinv].
    destruct (rooms s !! meetingKey p); [| done].
    destruct (decide _); [done |]. by intros [= <-].
Qed.

(** Every handler keeps each participant record stored under its own
    socket id and listed in the room the record names. *)
Lemma registered_in_room_step now i s :
  registered_in_room s → registered_in_room (step now i s).1.
Proof.
  intros Hinv.
  assert (∀ sid key, registered_in_room
            {| rooms := rooms_remove key sid (rooms s);
               participants := delete sid (participants s);
               adapter := adapter s |}) as Hremove.
  { intros sid key t p. simpl. rewrite lookup_delete.
    case_decide as Ht; [done |]. intros Hp.
    destruct (Hinv t p Hp) as (Hid & set & Hset & Hin). split; [done |].
    rewrite rooms_remove_lookup.
    destruct (decide (meetingKey p = key)) as [<- | Hne]; [| eauto].
    rewrite Hset.
    assert (t ∈ jsset_delete sid set) as Hin'.
    { apply elem_of_jsset_delete. split; [congruence | done]. }
    destruct (decide _) as [Hnil | _].
    - rewrite Hnil in Hin'. by apply not_elem_of_nil in Hin'.
    - eauto. }
  assert (∀ sid v p0 ad, participants s !! sid = Some p0 →
            registered_in_room
              {| rooms := rooms s;
                 participants := <[sid := set_sharing v p0]> (participants s);
                 adapter := ad |}) as Hflag.
  { intros sid v p0 ad Hp0 t p. simpl. rewrite lookup_insert.
    case_decide as Ht; [| apply Hinv]. subst t. intros [= <-].
    apply (Hinv sid p0 Hp0). }
  destruct i as [sid | sid m | sid]; cbn [step handle].
  - done.
  - destruct m; cbn [step handle]; try done.
    + intros t p. rewrite join_room_participants, lookup_insert.
      case_decide as Ht.
      * subst t. intros [= <-]. split; [done |]. cbn [meetingKey mkParticipant].
        rewrite join_room_rooms_lookup. eexists. split; [done |].
        apply elem_of_jsset_add. by left.
      * intros Hp. destruct (Hinv t p Hp) as (Hid & set & Hset & Hin).
        split; [done |].
        destruct (decide (meetingKey p = key)) as [<- | Hne].
        -- rewrite join_room_rooms_lookup. eexists. split; [done |].
           apply elem_of_jsset_add. right. by rewrite Hset.
        -- rewrite join_room_rooms_other by done. eauto.
    + apply Hremove.
    + unfold chat_message. by destruct (participants s !! sid).
    + unfold start_screen_share.
      destruct (participants s !! sid) as [p0 |] eqn:Hp0; [| done]. by apply Hflag.
    + unfold stop_screen_share.
      destruct (participants s !! sid) as [p0 |] eqn:Hp0; [| done]. by apply Hflag.
    + unfold start_recording. by destruct (participants s !! sid).
    + unfold stop_recording. by destruct (participants s !! sid).
  - rewrite disconnect_state. cbn [fst].
    destruct (participants s !! sid) as [p0 |] eqn:Hp0.
    + intros t p Hp. by apply (Hremove sid (meetingKey p0) t p).
    + intros t p. cbn [participants rooms]. rewrite lookup_delete. case_decide; [done |]. apply Hinv.
Qed.

Lemma run_app now ins1 ins2 s :
  run now (ins1 ++ ins2)%list s =
  let '(s1, out1) := run now ins1 s in
  let '(s2, out2) := run now ins2 s1 in
  (s2, (out1 ++ out2)%list).
Proof.
  revert s. induction ins1 as [| i ins1 IH]; intros s; simpl.
  - by destruct (run now ins2 s).
  - destruct (step now i s) as [s1 o1]. rewrite IH.
    destruct (run now ins1 s1) as [s2 o2]. destruct (run now ins2 s2) as [s3 o3].
    by rewrite app_assoc.
Qed.

Lemma run_invariant (P : State → Prop) now ins s :
  (∀ i s0, P s0 → P (step now i s0).1) → P s → P (run now ins s).1.
Proof.
  intros Hstep. revert s. induction ins as [| i ins IH]; intros s Hs; [done |].
  simpl. pose proof (Hstep i s Hs) as Hs1. destruct (step now i s) as [s1 o1].
  pose proof (IH s1 Hs1) as Hs2. by destruct (run now ins s1).
Qed.

(** X1: in every state the relay reaches from its start, whatever the
    connections, messages and closes it has seen, no room of the registry
    is empty. *)
Theorem registry_has_no_empty_room now ins :
  rooms_nonempty (run now ins init).1.
Proof.
  apply run_invariant; [apply rooms_nonempty_step |].
  intros key set. simpl. by rewrite lookup_empty.
Qed.

(** X2: in every state the relay reaches from its start, a participant
    record is stored under the socket id it carries, and that socket is
    listed in the room the record names. *)
Theorem registry_record_in_its_room now ins :
  registered_in_room (run now ins init).1.
Proof.
  apply run_invariant; [apply registered_in_room_step |].
  intros sid p. simpl. by rewrite lookup_empty.
Qed.

(** X3: an input of one socket never changes the participant record of
    another socket. *)
Theorem step_keeps_other_records now i t s :
  sender i ≠ t →
  participants (step now i s).1 !! t = participants s !! t.
Proof.
  intros Hne. destruct i as [sid | sid m | sid]; cbn [step handle sender] in *.
  - done.
  - destruct m; cbn [step handle]; try done.
    + rewrite join_room_participants. by rewrite lookup_insert_ne.
    + unfold leave_room. simpl. by rewrite lookup_delete_ne.
    + unfold chat_message. by destruct (participants s !! sid).
    + unfold start_screen_share.
      destruct (participants s !! sid); [| done]. simpl. by rewrite lookup_insert_ne.
    + unfold stop_screen_share.
      destruct (participants s !! sid); [| done]. simpl. by rewrite lookup_insert_ne.
    + unfold start_recording. by destruct (participants s !! sid).
    + unfold stop_recording. by destruct (participants s !! sid).
  - rewrite disconnect_state. simpl. by rewrite lookup_delete_ne.
Qed.

Lemma step_keeps_other_records_witness :
  sender (Message "sock-j" (LeaveRoom "r")) ≠ "sock-e" ∧
  participants (step "t" (Message "sock-j" (LeaveRoom "r")) room_with_e_j).1
    !! "sock-e" = participants room_with_e_j !! "sock-e".
Proof.
  split; [done |].
  apply (step_keeps_other_records "t" (Message "sock-j" (LeaveRoom "r"))
           "sock-e" room_with_e_j).
  done.
Defined.

(** X4: chat, screen-share and recording messages of a socket that has no
    participant record are dropped: nothing is emitted and the state is
    unchanged. *)
Theorem unregistered_sender_dropped now sid m s :
  guarded m = true → participants s !! sid = None →
  handle now sid m s = (s, []).
Proof.
  intros Hg Hnone. destruct m; simpl in Hg; try discriminate; simpl.
  - unfold chat_message. by rewrite Hnone.
  - unfold start_screen_share. by rewrite Hnone.
  - unfold stop_screen_share. by rewrite Hnone.
  - unfold start_recording. by rewrite Hnone.
  - unfold stop_recording. by rewrite Hnone.
Qed.

Lemma unregistered_sender_dropped_witness :
  guarded (Chat "r" (JStr "hi")) = true ∧
  participants room_with_e !! "sock-j" = None ∧
  handle "t" "sock-j" (Chat "r" (JStr "hi")) room_with_e = (room_with_e, []).
Proof.
  split; [reflexivity |]. split; [vm_compute; done |].
  apply (unregistered_sender_dropped "t" "sock-j" (Chat "r" (JStr "hi")) room_with_e).
  - reflexivity.
  - vm_compute. done.
Defined.

End RelayRegistry.

Section RelayTraffic.
Import Relay.

Implicit Types (s : State) (sid key c : string) (out : list Emission).

Lemma members_disconnect sid s room :
  members (disconnect sid s).1 room = members s room ∖ {[sid]}.
Proof.
  rewrite disconnect_state.
  change (members (sio_leave_all sid s) room = members s room ∖ {[sid]}).
  apply members_sio_leave_all.
Qed.

Lemma members_step now i s room x :
  x ∈ members (step now i s).1 room → x = sender i ∨ x ∈ members s room.
Proof.
  destruct i as [t | t m | t]; cbn [step handle sender fst].
  - unfold connect. rewrite members_sio_join. case_decide; [| by right].
    rewrite elem_of_union, elem_of_singleton. tauto.
  - destruct m; cbn [step handle]; try (by right).
    + change (members (join_room t key userInfo s).1 room)
        with (members (sio_join t key s) room).
      rewrite members_sio_join. case_decide; [| by right].
      rewrite elem_of_union, elem_of_singleton. tauto.
    + change (members (leave_room t key s).1 room)
        with (members (sio_leave t key s) room).
      rewrite members_sio_leave. case_decide; [| by right].
      rewrite elem_of_difference. tauto.
    + unfold chat_message. destruct (participants s !! t); by right.
    + unfold start_screen_share. destruct (participants s !! t); by right.
    + unfold stop_screen_share. destruct (participants s !! t); by right.
    + unfold start_recording. destruct (participants s !! t); by right.
    + unfold stop_recording. destruct (participants s !! t); by right.
  - rewrite members_disconnect, elem_of_difference. tauto.
Qed.

Lemma offline_step now i sid s :
  sender i ≠ sid → offline sid s → offline sid (step now i s).1.
Proof.
  intros Hne Hoff room Hin.
  apply members_step in Hin as [-> | Hin]; [done | by apply (Hoff room)].
Qed.

(** Every emission of a handler goes to the sending socket or to members
    of a Socket.IO room of the state before or after the step. *)
Lemma emission_recipients now i s e x :
  e ∈ (step now i s).2 → x ∈ em_to e →
  x = sender i ∨ ∃ room, x ∈ members s room ∨ x ∈ members (step now i s).1 room.
Proof.
  destruct i as [t | t m | t]; cbn [step handle sender snd].
  - intros He. by apply not_elem_of_nil in He.
  - destruct m; cbn [step handle].
    + rewrite join_room_out. intros [-> | [-> | He]%elem_of_cons]%elem_of_cons.
      * simpl. rewrite elem_of_singleton. by left.
      * simpl. rewrite elem_of_difference. intros [Hx _]. right. eauto.
      * by apply not_elem_of_nil in He.
    + rewrite leave_room_out. intros ->%list_elem_of_singleton. simpl.
      rewrite elem_of_difference. intros [Hx _]. right. eauto.
    + intros ->%list_elem_of_singleton. simpl.
      rewrite elem_of_difference. intros [Hx _]. right. eauto.
    + intros ->%list_elem_of_singleton. simpl.
      rewrite elem_of_difference. intros [Hx _]. right. eauto.
    + intros ->%list_elem_of_singleton. simpl.
      rewrite elem_of_difference. intros [Hx _]. right. eauto.
    + unfold chat_message. destruct (participants s !! t); simpl.
      * intros ->%list_elem_of_singleton. simpl. intros Hx. right. eauto.
      * intros He. by apply not_elem_of_nil in He.
    + unfold start_screen_share. destruct (participants s !! t); simpl.
      * intros ->%list_elem_of_singleton. simpl.
        rewrite elem_of_difference. intros [Hx _]. right. eauto.
      * intros He. by apply not_elem_of_nil in He.
    + unfold stop_screen_share. destruct (participants s !! t); simpl.
      * intros ->%list_elem_of_singleton. simpl.
        rewrite elem_of_difference. intros [Hx _]. right. eauto.
      * intros He. by apply not_elem_of_nil in He.
    + unfold start_recording. destruct (participants s !! t); simpl.
      * intros ->%list_elem_of_singleton. simpl. intros Hx. right. eauto.
      * intros He. by apply not_elem_of_nil in He.
    + unfold stop_recording. destruct (participants s !! t); simpl.
      * intros ->%list_elem_of_singleton. simpl. intros Hx. right. eauto.
      * intros He. by apply not_elem_of_nil in He.
  - unfold disconnect. cbn [participants sio_leave_all].
    destruct (participants s !! t) as [p |]; cbn [snd].
    + intros ->%list_elem_of_singleton. simpl.
      rewrite elem_of_difference. intros [Hx _]. right.
      exists (meetingKey p). left.
      change (x ∈ members (sio_leave_all t s) (meetingKey p)) in Hx.
      rewrite members_sio_leave_all, elem_of_difference in Hx. tauto.
    + intros He. by apply not_elem_of_nil in He.
Qed.

Lemma observed_none c out :
  (∀ e, e ∈ out → c ∉ em_to e) → observed c out = [].
Proof.
  induction out as [| e out IH]; intros Hall; [done |].
  rewrite observed_cons, decide_False by (apply Hall, list_elem_of_here).
  apply IH. intros e' He'. apply Hall. by apply list_elem_of_further.
Qed.

Lemma offline_hears_nothing now ins sid s :
  Forall (λ i, sender i ≠ sid) ins → offline sid s →
  observed sid (run now ins s).2 = [].
Proof.
  revert s. induction ins as [| i ins IH]; intros s Hall Hoff; [done |].
  apply Forall_cons in Hall as [Hi Hall]. simpl.
  pose proof (offline_step now i sid s Hi Hoff) as Hoff1.
  pose proof (emission_recipients now i s) as Hem.
  destruct (step now i s) as [s1 out1]. simpl in *.
  pose proof (IH s1 Hall Hoff1) as Hrest.
  destruct (run now ins s1) as [s2 out2]. simpl in *.
  rewrite observed_app, Hrest, app_nil_r.
  apply observed_none. intros e He Hin.
  destruct (Hem e sid He Hin) as [-> | [room [Hm | Hm]]]; [done | |].
  - by apply (Hoff room).
  - by apply (Hoff1 room).
Qed.

(** X5: once a connection has closed, the socket is written nothing by
    the relay, whatever the other sockets go on to send. *)
Theorem closed_socket_hears_nothing now ins sid s :
  Forall (λ i, sender i ≠ sid) ins →
  observed sid (run now ins (disconnect sid s).1).2 = [].
Proof.
  intros Hall. apply offline_hears_nothing; [done |].
  intros room. rewrite members_disconnect. apply sender_not_in_others.
Qed.

Lemma closed_socket_hears_nothing_witness :
  Forall (λ i, sender i ≠ "sock-e")
    [Message "sock-j" (Chat "r" (JStr "hi")); Message "sock-j" (LeaveRoom "r")] ∧
  observed "sock-e"
    (run "t" [Message "sock-j" (Chat "r" (JStr "hi"));
              Message "sock-j" (LeaveRoom "r")]
       (disconnect "sock-e" room_with_e_j).1).2 = [].
Proof.
  split; [apply (bool_decide_unpack _); vm_compute; done |].
  apply (closed_socket_hears_nothing "t" _ "sock-e" room_with_e_j).
  apply (bool_decide_unpack _). vm_compute. done.
Defined.

(** X6: an explicit leave followed by the close of the connection, which
    is what the client's teardown produces, is announced exactly once to
    every other socket of the room. *)
Theorem leave_then_close_notifies_once now sid key c s :
  c ∈ members s key → c ≠ sid →
  observed c (run now [Message sid (LeaveRoom key); Disconnect sid] s).2 =
    [UserLeft sid].
Proof.
  intros Hin Hne. cbn [run step handle].
  pose proof (leave_room_notifies_once sid key c s Hin Hne) as H1.
  pose proof (disconnect_after_leave_silent sid key s) as H2.
  destruct (leave_room sid key s) as [s1 out1]. simpl in *.
  destruct (disconnect sid s1) as [s2 out2]. simpl in *. subst out2.
  by rewrite !app_nil_r.
Qed.

Lemma leave_then_close_notifies_once_witness :
  "sock-e" ∈ members room_with_e_j "r" ∧ "sock-e" ≠ "sock-j" ∧
  observed "sock-e"
    (run "t" [Message "sock-j" (LeaveRoom "r"); Disconnect "sock-j"]
       room_with_e_j).2 = [UserLeft "sock-j"].
Proof.
  split; [apply (bool_decide_unpack _); vm_compute; done |]. split; [done |].
  apply (leave_then_close_notifies_once "t" "sock-j" "r" "sock-e" room_with_e_j).
  - apply (bool_decide_unpack _). vm_compute. done.
  - done.
Defined.

(** X7: when the only socket of a room leaves, the room is removed, and
    the next socket to join under that key gets a snapshot that holds its
    own record and nothing else. *)
Theorem last_leave_then_join_is_fresh a b key userInfo s :
  rooms s !! key = Some [a] →
  rooms (leave_room a key s).1 !! key = None ∧
  observed b (join_room b key userInfo (leave_room a key s).1).2 =
    [RoomUsers [mkParticipant b key userInfo]].
Proof.
  intros Hroom.
  assert (rooms (leave_room a key s).1 !! key = None) as Hnone.
  { unfold leave_room. simpl. rewrite rooms_remove_lookup, decide_True by done.
    rewrite Hroom. rewrite decide_True; [done |].
    unfold jsset_delete. rewrite filter_cons_False; [done |].
    intros Hne. by apply Hne. }
  split; [done |]. rewrite join_room_out, Hnone. simpl.
  rewrite !observed_cons, observed_nil. simpl.
  rewrite decide_True by apply elem_of_singleton_2, eq_refl.
  rewrite decide_False by apply sender_not_in_others.
  unfold jsset_add. simpl. by rewrite lookup_insert_eq.
Qed.

Lemma last_leave_then_join_is_fresh_witness :
  rooms room_with_e !! "r" = Some ["sock-e"] ∧
  rooms (leave_room "sock-e" "r" room_with_e).1 !! "r" = None ∧
  observed "sock-j"
    (join_room "sock-j" "r" info_j (leave_room "sock-e" "r" room_with_e).1).2 =
    [RoomUsers [mkParticipant "sock-j" "r" info_j]].
Proof.
  split; [vm_compute; done |].
  apply (last_leave_then_join_is_fresh "sock-e" "sock-j" "r" info_j room_with_e).
  vm_compute. done.
Defined.



(** X9: after the close of a connection the socket has no participant
    record, is in no Socket.IO room, and is no longer listed in the room
    its record named. *)
Theorem disconnect_clears_registry sid s :
  participants (disconnect sid s).1 !! sid = None ∧
  offline sid (disconnect sid s).1 ∧
  ∀ p set, participants s !! sid = Some p →
           rooms (disconnect sid s).1 !! meetingKey p = Some set → sid ∉ set.
Proof.
  split; [| split].
  - rewrite disconnect_state. simpl. by rewrite lookup_delete_eq.
  - intros room. rewrite members_disconnect. apply sender_not_in_others.
  - intros p set Hp. rewrite disconnect_state. cbn [rooms]. rewrite Hp.
    rewrite rooms_remove_lookup, decide_True by done.
    destruct (rooms s !! meetingKey p) as [set0 |]; [| done].
    destruct (decide _); [done |]. intros [= <-].
    rewrite elem_of_jsset_delete. tauto.
Qed.

(** X10: a directed message addressed to a socket whose own Socket.IO
    room holds that socket alone reaches that socket and no other; what
    arrives is the message itself, of the same kind and with the same
    payload, with the relay's own id of the sending socket as [from]; the
    relay keeps nothing of it. *)
Theorem directed_reaches_target_only now sid m to ev s :
  target m = Some to → delivered_as s sid m = Some ev →
  members s to = {[to]} → to ≠ sid →
  observed to (handle now sid m s).2 = [ev] ∧
  (∀ c, c ≠ to → observed c (handle now sid m s).2 = []) ∧
  (handle now sid m s).1 = s.
Proof.
  intros Ht Hev Hm Hne.
  assert ((handle now sid m s).2 = [socket_to s sid to ev] ∧
          (handle now sid m s).1 = s) as [Hout Hst].
  { destruct m; simpl in Ht; try discriminate; injection Ht as ->;
      cbn [delivered_as] in Hev; injection Hev as <-;
      cbn [handle webrtc_offer webrtc_answer webrtc_ice_candidate fst snd];
      (split; [| done]); [| done | done].
    by destruct (participants s !! sid). }
  rewrite Hout. split; [| split; [| done]].
  - rewrite observed_socket_to, Hm.
    by rewrite decide_True by (split; [by apply elem_of_singleton | done]).
  - intros c Hc. rewrite observed_socket_to, Hm. rewrite decide_False; [done |].
    rewrite elem_of_singleton. tauto.
Qed.

Lemma directed_reaches_target_only_witness :
  let m := Offer "r" (JStr "sdp") "sock-e" in
  let ev := WebrtcOffer (JStr "sdp") "sock-j" (JStr "u-j") in
  target m = Some "sock-e" ∧ delivered_as room_with_e_j "sock-j" m = Some ev ∧
  members room_with_e_j "sock-e" = {["sock-e"]} ∧ "sock-e" ≠ "sock-j" ∧
  observed "sock-e" (handle "t" "sock-j" m room_with_e_j).2 = [ev] ∧
  (∀ c, c ≠ "sock-e" → observed c (handle "t" "sock-j" m room_with_e_j).2 = []) ∧
  (handle "t" "sock-j" m room_with_e_j).1 = room_with_e_j.
Proof.
  intros m ev.
  split; [reflexivity |]. split; [vm_compute; done |].
  split; [vm_compute; done |]. split; [done |].
  apply (directed_reaches_target_only "t" "sock-j" m "sock-e" ev room_with_e_j).
  - reflexivity.
  - vm_compute. done.
  - vm_compute. done.
  - done.
Defined.

End RelayTraffic.

(** ** Further properties of the client *)

Section ClientLoop.
Import Client.

Implicit Types (s : State) (p : PeerConnection).

(** *** The event loop catches up *)

Lemma createPeerConnection_timers key sid isInitiator s :
  timers (MeetingRoom.createPeerConnection key sid isInitiator s).1 = timers s.
Proof.
  unfold MeetingRoom.createPeerConnection.
  destruct (peerConnections s !! sid); [done |].
  destruct isInitiator; unfold emit; simpl; by destruct (socket s).
Qed.

Lemma run_task_timers key task s :
  timers (MeetingRoom.run_task key task s) = timers s ∨
  timers (MeetingRoom.run_task key task s) =
    (timers s ++ [(clock s + 1000, task)])%list.
Proof.
  destruct task as [sid b | c f]; simpl.
  - left. apply createPeerConnection_timers.
  - unfold MeetingRoom.handleIceCandidate.
    destruct (MeetingRoom.ready s f); [by left | by right].
Qed.

Lemma backlog_app t (l1 l2 : list (nat * Task)) :
  backlog t (l1 ++ l2) = (backlog t l1 + backlog t l2)%nat.
Proof.
  unfold backlog. apply sum_list_with_app.
Qed.

Lemma backlog_retry t due task :
  (due ≤ t)%nat →
  (backlog t [(due + 1000, task)] < backlog t [(due, task)])%nat.
Proof.
  intros Hle. unfold backlog. cbn [sum_list_with fst].
  destruct (decide (due ≤ t)%nat) as [_ | Hn]; [| lia].
  destruct (decide (due + 1000 ≤ t)%nat) as [Hle' | Hgt]; [| lia].
  assert ((t - due) / 1000 = (t - (due + 1000)) / 1000 + 1)%nat as ->; [| lia].
  replace (t - due)%nat with ((t - (due + 1000)) + 1 * 1000)%nat by lia.
  apply Nat.div_add. lia.
Qed.

Lemma advance_enough_fuel key t fuel s :
  (backlog t (timers s) ≤ fuel)%nat →
  is_Some (MeetingRoom.advance key fuel t s).
Proof.
  revert s. induction fuel as [| fuel IH]; intros s Hfuel.
  - simpl. destruct (MeetingRoom.pop_due t (timers s)) as [[[due task] rest] |] eqn:Hpop;
      [| eauto].
    apply pop_due_spec in Hpop as (Hdue & _ & l1 & l2 & Hl & _ & _).
    rewrite Hl, backlog_app in Hfuel.
    change ((due, task) :: l2) with ([(due, task)] ++ l2)%list in Hfuel.
    rewrite backlog_app in Hfuel.
    pose proof (backlog_retry t due task Hdue). lia.
  - simpl. destruct (MeetingRoom.pop_due t (timers s)) as [[[due task] rest] |] eqn:Hpop;
      [| eauto].
    apply pop_due_spec in Hpop as (Hdue & _ & l1 & l2 & Hl & Hrest & _).
    apply IH.
    rewrite Hl, backlog_app in Hfuel.
    change ((due, task) :: l2) with ([(due, task)] ++ l2)%list in Hfuel.
    rewrite backlog_app in Hfuel.
    pose proof (backlog_retry t due task Hdue) as Hretry.
    destruct (run_task_timers key task (set_clock due (set_timers rest s)))
      as [-> | ->]; simpl; rewrite Hrest, ?backlog_app; lia.
Qed.

Lemma advance_clock key fuel t s s' :
  MeetingRoom.advance key fuel t s = Some s' → clock s' = t.
Proof.
  revert s. induction fuel as [| fuel IH]; intros s; simpl.
  - destruct (MeetingRoom.pop_due t (timers s)) as [[[due task] rest] |]; [done |].
    by intros [= <-].
  - destruct (MeetingRoom.pop_due t (timers s)) as [[[due task] rest] |].
    + apply IH.
    + by intros [= <-].
Qed.

(** X11: the event loop of the first component reaches every time [t]: the
    retry timers of [handleIceCandidate], which re-arm themselves, cannot
    keep it busy forever before [t]. The number of firings is bounded by
    the backlog of the timer queue. *)
Theorem event_loop_reaches_any_time key t s :
  ∃ s', MeetingRoom.advance key (backlog t (timers s)) t s = Some s' ∧
        clock s' = t.
Proof.
  destruct (advance_enough_fuel key t (backlog t (timers s)) s) as [s' Hs'];
    [done |].
  exists s'. split; [done |]. by apply advance_clock in Hs'.
Qed.

End ClientLoop.

Section ClientNegotiation.
Import Client.

Implicit Types (s : State) (p : PeerConnection).

(** *** Offer and answer *)

Lemma update_pc_lookup pc f s id :
  heap (update_pc pc f s) !! id =
  if decide (pc = id) then f <$> heap s !! id else heap s !! id.
Proof.
  simpl. destruct (decide (pc = id)) as [-> | Hne].
  - by rewrite lookup_alter_eq.
  - by rewrite lookup_alter_ne.
Qed.

Lemma linked_lookup s sid pc :
  linked s → peerConnections s !! sid = Some pc → is_Some (heap s !! pc).
Proof. intros Hl Hpc. by apply (Hl sid pc). Qed.

(** What [handleOffer] of the first component leaves behind. *)
Lemma handleOffer_result key offer from s :
  linked s → socket s = true →
  ∃ pc p,
    peerConnections (MeetingRoom.handleOffer key offer from s) !! from = Some pc ∧
    heap (MeetingRoom.handleOffer key offer from s) !! pc = Some p ∧
    remoteDescription p = Some offer ∧
    localDescription p = Some (createAnswer pc) ∧
    sent (MeetingRoom.handleOffer key offer from s) =
      (sent s ++ [Answer key (createAnswer pc) from])%list.
Proof.
  intros Hl Hsock. unfold MeetingRoom.handleOffer.
  destruct (peerConnections s !! from) as [pc |] eqn:Hpc.
  - destruct (linked_lookup s from pc Hl Hpc) as [p0 Hp0].
    exists pc, (setLocalDescription (createAnswer pc) (setRemoteDescription offer p0)).
    unfold emit. simpl. rewrite Hsock. simpl.
    rewrite !lookup_alter_eq, Hp0. done.
  - unfold MeetingRoom.createPeerConnection. rewrite Hpc.
    exists (nextPc s),
      (setLocalDescription (createAnswer (nextPc s))
         (setRemoteDescription offer (newPeerConnection mount_localStream))).
    unfold emit. simpl. rewrite Hsock. simpl.
    rewrite !lookup_alter_eq, !lookup_insert_eq. done.
Qed.

(** X12: an offer and answer exchange between two first components
    completes. The side without a connection toward the other creates one
    as initiator and sends an offer; the other side answers to the offer's
    sender; once the answer is handled, each side holds for the other a
    connection whose remote description is the other side's local one. *)
Theorem offer_answer_round_trip key l r meL meR uid sL sR :
  peerConnections sL !! r = None → socket sL = true →
  linked sR → socket sR = true →
  let offer := createOffer (nextPc sL) in
  let sL1 := (MeetingRoom.createPeerConnection key r true sL).1 in
  let sR1 := MeetingRoom.on_event key meR (WebrtcOffer offer l uid) sR in
  ∃ pcL pcR pL pR,
    sent sL1 = (sent sL ++ [Offer key offer r])%list ∧
    sent sR1 = (sent sR ++ [Answer key (createAnswer pcR) l])%list ∧
    let sL2 := MeetingRoom.on_event key meL
                 (WebrtcAnswer (createAnswer pcR) r) sL1 in
    peerConnections sL2 !! r = Some pcL ∧ heap sL2 !! pcL = Some pL ∧
    peerConnections sR1 !! l = Some pcR ∧ heap sR1 !! pcR = Some pR ∧
    localDescription pL = Some offer ∧
    remoteDescription pR = localDescription pL ∧
    remoteDescription pL = localDescription pR ∧
    sent sL2 = sent sL1.
Proof.
  intros HnoL HsockL HlR HsockR offer sL1 sR1.
  destruct (handleOffer_result key offer l sR HlR HsockR)
    as (pcR & pR & HpcR & HpR & Hrem & Hloc & HsentR).
  exists (nextPc sL), pcR.
  exists (setRemoteDescription (createAnswer pcR)
            (setLocalDescription offer (newPeerConnection mount_localStream))), pR.
  split.
  { unfold sL1. by apply createPeerConnection_initiator_offers. }
  split; [done |].
  assert (peerConnections sL1 !! r = Some (nextPc sL)) as HpcL.
  { unfold sL1, MeetingRoom.createPeerConnection. rewrite HnoL.
    unfold emit. simpl. rewrite HsockL. simpl. by rewrite lookup_insert_eq. }
  assert (heap sL1 !! nextPc sL =
            Some (setLocalDescription offer (newPeerConnection mount_localStream)))
    as HpL.
  { unfold sL1, MeetingRoom.createPeerConnection. rewrite HnoL.
    unfold emit. simpl. rewrite HsockL. simpl.
    by rewrite lookup_alter_eq, lookup_insert_eq. }
  cbn [MeetingRoom.on_event]. unfold handleAnswer. rewrite HpcL.
  cbn [peerConnections update_pc set_heap sent].
  split; [done |]. split.
  { change (heap (update_pc (nextPc sL) (setRemoteDescription (createAnswer pcR)) sL1)
              !! nextPc sL = Some
              (setRemoteDescription (createAnswer pcR)
                 (setLocalDescription offer (newPeerConnection mount_localStream)))).
    rewrite update_pc_lookup, decide_True by done. by rewrite HpL. }
  split; [done |]. split; [done |]. split; [done |].
  split; [by rewrite Hrem |]. split; [by rewrite Hloc | done].
Qed.

Lemma offer_answer_round_trip_witness :
  peerConnections (mounted None) !! "sock-r" = None ∧
  socket (mounted None) = true ∧
  linked (mounted (Some camera_stream)) ∧
  socket (mounted (Some camera_stream)) = true ∧
  let sL := mounted None in
  let sR := mounted (Some camera_stream) in
  let offer := createOffer (nextPc sL) in
  let sL1 := (MeetingRoom.createPeerConnection "r" "sock-r" true sL).1 in
  let sR1 := MeetingRoom.on_event "r" (JStr "u-r")
               (WebrtcOffer offer "sock-l" (JStr "u-l")) sR in
  ∃ pcL pcR pL pR,
    sent sL1 = (sent sL ++ [Offer "r" offer "sock-r"])%list ∧
    sent sR1 = (sent sR ++ [Answer "r" (createAnswer pcR) "sock-l"])%list ∧
    let sL2 := MeetingRoom.on_event "r" (JStr "u-l")
                 (WebrtcAnswer (createAnswer pcR) "sock-r") sL1 in
    peerConnections sL2 !! "sock-r" = Some pcL ∧ heap sL2 !! pcL = Some pL ∧
    peerConnections sR1 !! "sock-l" = Some pcR ∧ heap sR1 !! pcR = Some pR ∧
    localDescription pL = Some offer ∧
    remoteDescription pR = localDescription pL ∧
    remoteDescription pL = localDescription pR ∧
    sent sL2 = sent sL1.
Proof.
  split; [vm_compute; done |]. split; [reflexivity |].
  split; [apply (bool_decide_unpack _); vm_compute; done |].
  split; [reflexivity |].
  apply (offer_answer_round_trip "r" "sock-l" "sock-r" (JStr "u-l") (JStr "u-r")
           (JStr "u-l") (mounted None) (mounted (Some camera_stream))).
  - vm_compute. done.
  - reflexivity.
  - apply (bool_decide_unpack _). vm_compute. done.
  - reflexivity.
Defined.

End ClientNegotiation.

Section ClientInvariants.
Import Client.

Implicit Types (s : State) (p : PeerConnection).

(** *** Candidates and the remote description *)

Lemma car_ext s s' : heap s' = heap s → candidates_after_remote s →
  candidates_after_remote s'.
Proof. unfold candidates_after_remote. by intros ->. Qed.

Lemma car_update_pc pc f s :
  (∀ p, candidates (f p) = candidates p ∧
        (is_Some (remoteDescription p) → is_Some (remoteDescription (f p)))) →
  candidates_after_remote s → candidates_after_remote (update_pc pc f s).
Proof.
  intros Hf Hinv id p'. rewrite update_pc_lookup. case_decide; [| apply Hinv].
  destruct (heap s !! id) as [p |] eqn:Hp; [| done]. simpl. intros [= <-].
  destruct (Hf p) as [-> Hrem]. intros Hc. apply Hrem. by apply (Hinv id p).
Qed.

Lemma car_addIceCandidate pc c p0 s :
  heap s !! pc = Some p0 → is_Some (remoteDescription p0) →
  candidates_after_remote s →
  candidates_after_remote (update_pc pc (addIceCandidate c) s).
Proof.
  intros Hp0 Hrem Hinv id p'. rewrite update_pc_lookup. case_decide; [| apply Hinv].
  subst id. rewrite Hp0. simpl. by intros [= <-].
Qed.

Lemma car_emit m s : candidates_after_remote s → candidates_after_remote (emit m s).
Proof. apply car_ext. unfold emit. by destruct (socket s). Qed.

Lemma car_new pc stream s s' :
  heap s' = <[pc := newPeerConnection stream]> (heap s) →
  candidates_after_remote s → candidates_after_remote s'.
Proof.
  intros Hh Hinv id p. rewrite Hh, lookup_insert. case_decide; [| apply Hinv].
  by intros [= <-].
Qed.

Lemma car_setLocal d p :
  candidates (setLocalDescription d p) = candidates p ∧
  (is_Some (remoteDescription p) →
   is_Some (remoteDescription (setLocalDescription d p))).
Proof. done. Qed.

Lemma car_setRemote d p :
  candidates (setRemoteDescription d p) = candidates p ∧
  (is_Some (remoteDescription p) →
   is_Some (remoteDescription (setRemoteDescription d p))).
Proof. split; [done |]. intros _. simpl. eauto. Qed.

Lemma car_close p :
  candidates (close p) = candidates p ∧
  (is_Some (remoteDescription p) → is_Some (remoteDescription (close p))).
Proof. done. Qed.

Lemma car_createPeerConnection key sid b s :
  candidates_after_remote s →
  candidates_after_remote (MeetingRoom.createPeerConnection key sid b s).1.
Proof.
  intros Hinv. unfold MeetingRoom.createPeerConnection.
  destruct (peerConnections s !! sid); [done |]. cbn [fst].
  set (s2 := set_peerConnections _ _).
  assert (candidates_after_remote s2) as H2
    by (by apply (car_new (nextPc s) mount_localStream s)).
  destruct b; [| done].
  apply car_emit, car_update_pc; [apply car_setLocal | done].
Qed.

Lemma car_on_user_left sid s :
  candidates_after_remote s → candidates_after_remote (on_user_left sid s).
Proof.
  intros Hinv. unfold on_user_left. cbn [peerConnections set_participants].
  destruct (peerConnections s !! sid) as [pc |]; [| by apply (car_ext s)].
  apply (car_ext (update_pc pc close s)); [done |].
  apply car_update_pc; [apply car_close | done].
Qed.

Lemma car_handleAnswer answer from s :
  candidates_after_remote s → candidates_after_remote (handleAnswer answer from s).
Proof.
  intros Hinv. unfold handleAnswer. destruct (peerConnections s !! from); [| done].
  apply car_update_pc; [apply car_setRemote | done].
Qed.

Lemma car_handleIceCandidate c from s :
  candidates_after_remote s →
  candidates_after_remote (MeetingRoom.handleIceCandidate c from s).
Proof.
  intros Hinv.
  destruct (handleIceCandidate_cases c from s)
    as [(pc & p & _ & Hp & Hrem & ->) | [_ ->]].
  - by apply (car_addIceCandidate pc c p).
  - by apply (car_ext s).
Qed.

Lemma car_run_task key task s :
  candidates_after_remote s →
  candidates_after_remote (MeetingRoom.run_task key task s).
Proof.
  intros Hinv. destruct task; simpl.
  - by apply car_createPeerConnection.
  - by apply car_handleIceCandidate.
Qed.

Lemma car_on_event key me ev s :
  candidates_after_remote s →
  candidates_after_remote (MeetingRoom.on_event key me ev s).
Proof.
  intros Hinv.
  destruct ev; cbn [MeetingRoom.on_event]; [| | | | | | done | | | done | done].
  - destruct (on_room_users_frame me roomParticipants s) as (Hh & _).
    by apply (car_ext s).
  - unfold MeetingRoom.on_user_joined.
    destruct (js_strict_eq (userId p) me); [done | by apply (car_ext s)].
  - by apply car_on_user_left.
  - unfold MeetingRoom.handleOffer.
    pose proof (car_createPeerConnection key from false s Hinv) as Hc.
    destruct (peerConnections s !! from) as [pc |].
    + apply car_emit, car_update_pc; [apply car_setLocal |].
      apply car_update_pc; [apply car_setRemote | done].
    + destruct (MeetingRoom.createPeerConnection key from false s) as [s1 [pc |]];
        cbn [fst] in Hc; [| done].
      apply car_emit, car_update_pc; [apply car_setLocal |].
      apply car_update_pc; [apply car_setRemote | done].
  - by apply car_handleAnswer.
  - by apply car_handleIceCandidate.
  - by apply (car_ext s).
  - by apply (car_ext s).
Qed.

Lemma car_advance key fuel t s s' :
  MeetingRoom.advance key fuel t s = Some s' →
  candidates_after_remote s → candidates_after_remote s'.
Proof.
  revert s. induction fuel as [| fuel IH]; intros s; simpl.
  - destruct (MeetingRoom.pop_due t (timers s)) as [[[due task] rest] |]; [done |].
    intros [= <-]. by apply car_ext.
  - destruct (MeetingRoom.pop_due t (timers s)) as [[[due task] rest] |].
    + intros Hadv Hinv. apply (IH _ Hadv). apply car_run_task. by apply (car_ext s).
    + intros [= <-]. by apply car_ext.
Qed.

(** X13: in the first component, whatever events arrive and whenever the
    timers fire, a connection that has been given an ICE candidate has a
    remote description: [handleIceCandidate] looks at [pc.remoteDescription]
    before every [addIceCandidate], also when a retry timer calls it. *)
Theorem candidates_never_precede_remote key me fuel trace t stream s' :
  (MeetingRoom.simulate key me fuel trace (mounted stream)
     ≫= MeetingRoom.advance key fuel t) = Some s' →
  candidates_after_remote s'.
Proof.
  assert (candidates_after_remote (mounted stream)) as H0.
  { intros id p. simpl. by rewrite lookup_empty. }
  destruct (MeetingRoom.simulate key me fuel trace (mounted stream))
    as [s1 |] eqn:Hsim; [| done].
  cbn [mbind option_bind]. intros Hadv.
  apply (car_advance key fuel t s1); [done |].
  revert Hsim. generalize (mounted stream) H0. clear Hadv.
  induction trace as [| [t0 ev] trace IH]; intros s Hs; simpl.
  - by intros [= <-].
  - destruct (MeetingRoom.advance key fuel t0 s) as [s2 |] eqn:Hadv; [| done].
    intros Hsim. apply (IH (MeetingRoom.on_event key me ev s2)); [| done].
    apply car_on_event. by apply (car_advance key fuel t0 s).
Qed.

Lemma candidates_never_precede_remote_witness :
  ∃ s', (MeetingRoom.simulate "r" (JStr "u-l") 10 early_candidates (mounted None)
           ≫= MeetingRoom.advance "r" 10 5000) = Some s' ∧
        candidates_after_remote s'.
Proof.
  eexists. split; [vm_compute; reflexivity |].
  apply (candidates_never_precede_remote "r" (JStr "u-l") 10 early_candidates
           5000 None).
  vm_compute. reflexivity.
Defined.

(** *** The senders of the connections *)

Lemma ns_ext s s' : heap s' = heap s → no_senders s → no_senders s'.
Proof. unfold no_senders. by intros ->. Qed.

Lemma ns_update_pc pc f s :
  (∀ p, senders (f p) = senders p) →
  no_senders s → no_senders (update_pc pc f s).
Proof.
  intros Hf Hinv id p'. rewrite update_pc_lookup. case_decide; [| apply Hinv].
  destruct (heap s !! id) as [p |] eqn:Hp; [| done]. simpl. intros [= <-].
  rewrite Hf. by apply (Hinv id).
Qed.

Lemma ns_emit m s : no_senders s → no_senders (emit m s).
Proof. apply ns_ext. unfold emit. by destruct (socket s). Qed.

Lemma ns_new pc s s' :
  heap s' = <[pc := newPeerConnection mount_localStream]> (heap s) →
  no_senders s → no_senders s'.
Proof.
  intros Hh Hinv id p. rewrite Hh, lookup_insert. case_decide; [| apply Hinv].
  by intros [= <-].
Qed.

Lemma ns_createPeerConnection key sid b s :
  no_senders s → no_senders (MeetingRoom.createPeerConnection key sid b s).1.
Proof.
  intros Hinv. unfold MeetingRoom.createPeerConnection.
  destruct (peerConnections s !! sid); [done |]. cbn [fst].
  set (s2 := set_peerConnections _ _).
  assert (no_senders s2) as H2 by (by apply (ns_new (nextPc s) s)).
  destruct b; [| done]. by apply ns_emit, ns_update_pc.
Qed.

Lemma ns_createPeerConnection2 key sid b s :
  no_senders s → no_senders (MeetingRoom2.createPeerConnection key sid b s).1.
Proof.
  intros Hinv. unfold MeetingRoom2.createPeerConnection. cbn [fst].
  set (s2 := set_peerConnections _ _).
  assert (no_senders s2) as H2 by (by apply (ns_new (nextPc s) s)).
  destruct b; [| done]. by apply ns_emit, ns_update_pc.
Qed.

Lemma ns_on_user_left sid s : no_senders s → no_senders (on_user_left sid s).
Proof.
  intros Hinv. unfold on_user_left. cbn [peerConnections set_participants].
  destruct (peerConnections s !! sid) as [pc |]; [| by apply (ns_ext s)].
  apply (ns_ext (update_pc pc close s)); [done |]. by apply ns_update_pc.
Qed.

Lemma ns_handleAnswer answer from s :
  no_senders s → no_senders (handleAnswer answer from s).
Proof.
  intros Hinv. unfold handleAnswer. destruct (peerConnections s !! from); [| done].
  by apply ns_update_pc.
Qed.

Lemma ns_handleIceCandidate c from s :
  no_senders s → no_senders (MeetingRoom.handleIceCandidate c from s).
Proof.
  intros Hinv.
  destruct (handleIceCandidate_cases c from s)
    as [(pc & p & _ & _ & _ & ->) | [_ ->]].
  - by apply ns_update_pc.
  - by apply (ns_ext s).
Qed.

Lemma ns_run_task key task s :
  no_senders s → no_senders (MeetingRoom.run_task key task s).
Proof.
  intros Hinv. destruct task; simpl.
  - by apply ns_createPeerConnection.
  - by apply ns_handleIceCandidate.
Qed.

Lemma ns_on_event key me ev s :
  no_senders s → no_senders (MeetingRoom.on_event key me ev s).
Proof.
  intros Hinv.
  destruct ev; cbn [MeetingRoom.on_event]; [| | | | | | done | | | done | done].
  - destruct (on_room_users_frame me roomParticipants s) as (Hh & _).
    by apply (ns_ext s).
  - unfold MeetingRoom.on_user_joined.
    destruct (js_strict_eq (userId p) me); [done | by apply (ns_ext s)].
  - by apply ns_on_user_left.
  - unfold MeetingRoom.handleOffer.
    pose proof (ns_createPeerConnection key from false s Hinv) as Hc.
    destruct (peerConnections s !! from) as [pc |].
    + by apply ns_emit, ns_update_pc, ns_update_pc.
    + destruct (MeetingRoom.createPeerConnection key from false s) as [s1 [pc |]];
        cbn [fst] in Hc; [| done].
      by apply ns_emit, ns_update_pc, ns_update_pc.
  - by apply ns_handleAnswer.
  - by apply ns_handleIceCandidate.
  - by apply (ns_ext s).
  - by apply (ns_ext s).
Qed.

Lemma ns_advance key fuel t s s' :
  MeetingRoom.advance key fuel t s = Some s' → no_senders s → no_senders s'.
Proof.
  revert s. induction fuel as [| fuel IH]; intros s; simpl.
  - destruct (MeetingRoom.pop_due t (timers s)) as [[[due task] rest] |]; [done |].
    intros [= <-]. by apply ns_ext.
  - destruct (MeetingRoom.pop_due t (timers s)) as [[[due task] rest] |].
    + intros Hadv Hinv. apply (IH _ Hadv). apply ns_run_task. by apply (ns_ext s).
    + intros [= <-]. by apply ns_ext.
Qed.

Lemma ns_on_event2 key me ev s :
  no_senders s → no_senders (MeetingRoom2.on_event key me ev s).
Proof.
  intros Hinv.
  destruct ev; cbn [MeetingRoom2.on_event]; [| | | | | | done | | | done | done].
  - unfold MeetingRoom2.on_room_users.
    set (l := filter (λ u, js_strict_eq (userId u) me = false) roomParticipants).
    apply (ns_ext (foldl (λ st u, (MeetingRoom2.createPeerConnection key
                                     (socketId u) true st).1) s l)); [done |].
    clearbody l. revert s Hinv. induction l as [| u l IH]; intros s Hinv; [done |].
    cbn [foldl]. apply IH. by apply ns_createPeerConnection2.
  - unfold MeetingRoom2.on_user_joined.
    destruct (js_strict_eq (userId p) me); [done |].
    apply ns_createPeerConnection2. by apply (ns_ext s).
  - by apply ns_on_user_left.
  - unfold MeetingRoom2.handleOffer.
    pose proof (ns_createPeerConnection2 key from false s Hinv) as Hc.
    destruct (peerConnections s !! from) as [pc |].
    + by apply ns_emit, ns_update_pc, ns_update_pc.
    + destruct (MeetingRoom2.createPeerConnection key from false s) as [s1 [pc |]];
        cbn [fst] in Hc; [| done].
      by apply ns_emit, ns_update_pc, ns_update_pc.
  - by apply ns_handleAnswer.
  - unfold MeetingRoom2.handleIceCandidate.
    destruct (peerConnections s !! from) as [pc |]; [| done].
    apply ns_update_pc; [| done]. intros p0. unfold addIceCandidate_unchecked.
    by destruct (remoteDescription p0).
  - by apply (ns_ext s).
  - by apply (ns_ext s).
Qed.

(** The connections that the listeners and their timers make carry no
    local track, in either component and whatever stream the component
    holds: [createPeerConnection] reads [localStream] in the render that
    ran the effect. *)
Lemma listener_connections_carry_no_track key me stream :
  (∀ fuel trace t s',
     (MeetingRoom.simulate key me fuel trace (mounted stream)
        ≫= MeetingRoom.advance key fuel t) = Some s' → no_senders s') ∧
  (∀ evs, no_senders (MeetingRoom2.feed key me evs (mounted stream))).
Proof.
  assert (no_senders (mounted stream)) as H0.
  { intros id p. simpl. by rewrite lookup_empty. }
  split.
  - intros fuel trace t s'.
    destruct (MeetingRoom.simulate key me fuel trace (mounted stream))
      as [s1 |] eqn:Hsim; [| done].
    cbn [mbind option_bind]. intros Hadv.
    apply (ns_advance key fuel t s1); [done |].
    revert Hsim. generalize (mounted stream) H0. clear Hadv.
    induction trace as [| [t0 ev] trace IH]; intros s Hs; simpl.
    + by intros [= <-].
    + destruct (MeetingRoom.advance key fuel t0 s) as [s2 |] eqn:Hadv; [| done].
      intros Hsim. apply (IH (MeetingRoom.on_event key me ev s2)); [| done].
      apply ns_on_event. by apply (ns_advance key fuel t0 s).
  - intros evs. unfold MeetingRoom2.feed. generalize (mounted stream) H0.
    induction evs as [| ev evs IH]; intros s Hs; [done |].
    cbn [foldl]. apply IH. by apply ns_on_event2.
Qed.

(** X14: in the first component, whatever events arrive and whenever the
    timers fire, no connection object is stored under two socket ids and
    every open connection object is the one stored for some socket id: at
    most one open connection per remote socket exists at any time. *)
Theorem first_component_one_connection_per_peer key me fuel trace stream s' :
  MeetingRoom.simulate key me fuel trace (mounted stream) = Some s' →
  wf s' ∧ tracked s'.
Proof.
  intros Hsim. apply (inv_simulate key me fuel trace (mounted stream) s' Hsim).
  split; [apply wf_mounted | apply tracked_mounted].
Qed.

Lemma first_component_one_connection_per_peer_witness :
  ∃ s', MeetingRoom.simulate "r" (JStr "u-l") 10 early_candidates (mounted None)
        = Some s' ∧ wf s' ∧ tracked s'.
Proof.
  eexists. split; [vm_compute; reflexivity |].
  apply (first_component_one_connection_per_peer "r" (JStr "u-l") 10
           early_candidates None).
  vm_compute. reflexivity.
Defined.

(** *** A peer leaves *)

(** X15: on [user-left] the connection toward the departed socket is
    closed and dropped from the map, the connections toward the other
    sockets and their objects are untouched, nothing is sent, and a second
    [user-left] for the same socket changes nothing. *)
Theorem user_left_releases_one_peer sid s :
  wf s →
  let s' := on_user_left sid s in
  peerConnections s' !! sid = None ∧
  (∀ pc p, peerConnections s !! sid = Some pc → heap s !! pc = Some p →
           heap s' !! pc = Some (close p)) ∧
  (∀ t pc, t ≠ sid → peerConnections s !! t = Some pc →
           peerConnections s' !! t = Some pc ∧ heap s' !! pc = heap s !! pc) ∧
  sent s' = sent s ∧
  on_user_left sid s' = s'.
Proof.
  intros Hwf s'. apply wf_spec in Hwf as [_ Hinj]. unfold s', on_user_left.
  cbn [peerConnections set_participants].
  destruct (peerConnections s !! sid) as [pc0 |] eqn:Hpc0.
  - split; [simpl; by rewrite lookup_delete_eq |]. split; [| split; [| split]].
    + intros pc p [= <-] Hp. simpl. by rewrite lookup_alter_eq, Hp.
    + intros t pc Hne Ht. simpl. rewrite lookup_delete_ne by done.
      split; [done |]. rewrite lookup_alter_ne; [done |].
      intros <-. apply Hne. by apply (Hinj t sid pc0).
    + done.
    + simpl. rewrite lookup_delete_eq. by rewrite delete_delete_eq.
  - split; [done |]. split; [done |]. split; [by intros t pc _ ? |].
    split; [done |]. simpl. rewrite Hpc0. by rewrite delete_delete_eq.
Qed.

Lemma user_left_releases_one_peer_witness :
  wf in_call ∧
  let s' := on_user_left "sock-b" in_call in
  peerConnections s' !! "sock-b" = None ∧
  (∀ pc p, peerConnections in_call !! "sock-b" = Some pc →
           heap in_call !! pc = Some p → heap s' !! pc = Some (close p)) ∧
  (∀ t pc, t ≠ "sock-b" → peerConnections in_call !! t = Some pc →
           peerConnections s' !! t = Some pc ∧
           heap s' !! pc = heap in_call !! pc) ∧
  sent s' = sent in_call ∧
  on_user_left "sock-b" s' = s'.
Proof.
  split; [apply (bool_decide_unpack _); vm_compute; done |].
  apply (user_left_releases_one_peer "sock-b" in_call).
  apply (bool_decide_unpack _). vm_compute. done.
Defined.

End ClientInvariants.

Section ClientView.
Import Client.

Implicit Types (s : State).

(** *** The snapshot on the client *)

Lemma view_lookup (l : list Participant) (m : gmap string Participant) sid p :
  foldl (λ m u, <[socketId u := u]> m) m l !! sid = Some p →
  (p ∈ l ∧ socketId p = sid) ∨ m !! sid = Some p.
Proof.
  revert m. induction l as [| u l IH]; intros m; cbn [foldl]; [by right |].
  intros [[Hin Hid] | Hm]%IH.
  - left. split; [by apply list_elem_of_further | done].
  - rewrite lookup_insert in Hm. case_decide as Hu.
    + injection Hm as <-. left. split; [apply list_elem_of_here | done].
    + by right.
Qed.

Lemma view_covers (l : list Participant) (m : gmap string Participant) u :
  u ∈ l ∨ is_Some (m !! socketId u) →
  is_Some (foldl (λ m u, <[socketId u := u]> m) m l !! socketId u).
Proof.
  revert m. induction l as [| v l IH]; intros m; cbn [foldl].
  - intros [Hin | Hm]; [by apply not_elem_of_nil in Hin | done].
  - intros [[-> | Hin]%elem_of_cons | Hm]; apply IH.
    + right. rewrite lookup_insert_eq. eauto.
    + by left.
    + right. rewrite lookup_insert. case_decide; eauto.
Qed.

Lemma room_users_timers (l : list Participant) s :
  timers (foldl (λ st u, setTimeout (TCreatePeerConnection (socketId u) true) 500 st)
            s l) =
    (timers s ++
     ((λ u, ((clock s + 500)%nat, TCreatePeerConnection (socketId u) true)) <$> l))%list ∧
  clock (foldl (λ st u, setTimeout (TCreatePeerConnection (socketId u) true) 500 st)
           s l) = clock s.
Proof.
  revert s. induction l as [| u l IH]; intros s; cbn [foldl].
  - by rewrite app_nil_r.
  - destruct (IH (setTimeout (TCreatePeerConnection (socketId u) true) 500 s))
      as [-> ->]. simpl. by rewrite <- app_assoc.
Qed.

(** X16: on [room-users] the first component replaces its view of the
    room by the listed participants whose [userId] differs from the local
    user's, keyed by socket id, and schedules half a second later one
    initiator connection for each of them, in list order; records carrying
    the local user's id, the local socket's own record among them, are
    skipped. Nothing is sent and no connection is made at once. *)
Theorem room_users_schedules_others me (users : list Participant) s :
  let s' := MeetingRoom.on_room_users me users s in
  let others := filter (λ u, js_strict_eq (userId u) me = false) users in
  (∀ sid u, participants s' !! sid = Some u →
            u ∈ users ∧ socketId u = sid ∧ js_strict_eq (userId u) me = false) ∧
  (∀ u, u ∈ users → js_strict_eq (userId u) me = false →
        is_Some (participants s' !! socketId u)) ∧
  timers s' =
    (timers s ++
     ((λ u, ((clock s + 500)%nat, TCreatePeerConnection (socketId u) true))
        <$> others))%list ∧
  sent s' = sent s ∧ peerConnections s' = peerConnections s.
Proof.
  intros s' others.
  destruct (on_room_users_frame me users s) as (_ & Hpcs & _ & Hsent).
  split; [| split; [| split; [| done]]].
  - intros sid u Hu. unfold s', MeetingRoom.on_room_users in Hu. cbn [participants set_participants] in Hu.
    apply view_lookup in Hu as [[Hin Hid] | Hempty]; [| by rewrite lookup_empty in Hempty].
    apply list_elem_of_filter in Hin as [Hne Hin]. done.
  - intros u Hin Hne. unfold s', MeetingRoom.on_room_users. cbn [participants set_participants].
    apply view_covers. left. by apply list_elem_of_filter.
  - unfold s', MeetingRoom.on_room_users. cbn [timers set_participants].
    apply room_users_timers.
Qed.

(** *** Teardown of a component that is already torn down *)

Lemma stop_tracks_frame throws (l : list Track) s s' r :
  forEach (λ t, call throws (StopTrack (track_id t))
                  (λ st, set_stopped ({[track_id t]} ∪ stopped st) st)) l s
    = (s', r) →
  s' = set_stopped (stopped s') s.
Proof.
  revert s. induction l as [| t l IH]; intros s; cbn [forEach].
  - intros [= <- <-]. by destruct s.
  - unfold andThen, call. destruct (throws (StopTrack (track_id t))).
    + intros [= <- <-]. by destruct s.
    + intros Hrest. apply IH in Hrest. rewrite Hrest at 1. done.
Qed.

(** X17: [cleanup] on a component whose socket is gone and whose
    connection map is empty, as it is after a first [cleanup], emits
    nothing and touches no connection object, whatever stream its render
    sees and whether or not a host call raises: leaving through the button
    and then unmounting announces the departure once. *)
Theorem cleanup_again_is_silent key throws stream s :
  socket s = false → peerConnections s = ∅ →
  sent (cleanup key throws stream s).1 = sent s ∧
  heap (cleanup key throws stream s).1 = heap s ∧
  socket (cleanup key throws stream s).1 = false ∧
  peerConnections (cleanup key throws stream s).1 = ∅.
Proof.
  intros Hsock Hpcs.
  assert (cleanup key throws stream s =
          let '(s1, r1) := stop_tracks throws stream s in
          if r1 then (s1, true)
          else let '(s2, r2) := close_all throws s1 in
               if r2 then (s2, true)
               else let '(s3, r3) := leaveRoom key throws s2 in
                    if r3 then (s3, true) else disconnect throws s3) as ->.
  { unfold cleanup, andThen.
    destruct (stop_tracks throws stream s) as [s1 []]; [done |].
    destruct (close_all throws s1) as [s2 []]; [done |].
    by destruct (leaveRoom key throws s2) as [s3 []]. }
  destruct (stop_tracks throws stream s) as [s1 r1] eqn:E1.
  assert (s1 = set_stopped (stopped s1) s) as Hs1.
  { unfold stop_tracks in E1. destruct stream as [l |].
    - by apply stop_tracks_frame in E1.
    - injection E1 as <- <-. by destruct s. }
  assert (sent s1 = sent s ∧ heap s1 = heap s ∧ socket s1 = false ∧
          peerConnections s1 = ∅) as (Ha & Hb & Hc & Hd).
  { rewrite Hs1. simpl. done. }
  clear Hs1 E1. destruct r1; [done |].
  unfold close_all, andThen. rewrite Hd, map_to_list_empty. cbn [forEach].
  unfold leaveRoom, disconnect. cbn [socket set_peerConnections].
  rewrite Hc. destruct (bool_decide (key = "")); simpl; rewrite Hc; simpl; done.
Qed.

Lemma cleanup_again_is_silent_witness :
  let s := (leaveMeeting "r" never_throws in_call).1 in
  socket s = false ∧ peerConnections s = ∅ ∧
  sent (unmount "r" never_throws s).1 = sent s ∧
  heap (unmount "r" never_throws s).1 = heap s ∧
  socket (unmount "r" never_throws s).1 = false ∧
  peerConnections (unmount "r" never_throws s).1 = ∅.
Proof.
  intros s. split; [vm_compute; done |]. split; [vm_compute; done |].
  apply (cleanup_again_is_silent "r" never_throws mount_localStream s).
  - vm_compute. done.
  - vm_compute. done.
Defined.

End ClientView.

(** ** Properties of the HTTP side of the server *)

Section ServerFacts.
Import Server AuthContext.

(** *** Meeting keys *)

Lemma charAt_chars k :
  (k < 26)%nat →
  ∃ c, charAt chars k = String c EmptyString ∧ is_lower c = true ∧
       (nat_of_ascii c - 97)%nat = k.
Proof.
  intros Hk.
  do 26 (destruct k as [| k]; [eexists; split; [reflexivity | split; reflexivity] |]).
  lia.
Qed.

Lemma key_shape random n :
  Forall (λ k, (random k < 26)%nat) (seq n 9) →
  ∃ c0 c1 c2 c3 c4 c5 c6 c7 c8,
    generateMeetingKey random n =
      (String c0 (String c1 (String c2 (String "-"
        (String c3 (String c4 (String c5 (String "-"
          (String c6 (String c7 (String c8 EmptyString)))))))))),
       (n + 9)%nat) ∧
    Forall (λ c, is_lower c = true) [c0; c1; c2; c3; c4; c5; c6; c7; c8] ∧
    (λ c, (nat_of_ascii c - 97)%nat) <$> [c0; c1; c2; c3; c4; c5; c6; c7; c8] =
      random <$> seq n 9.
Proof.
  intros Hall. cbn [seq] in Hall.
  repeat (apply Forall_cons in Hall as [?%charAt_chars Hall]).
  repeat match goal with
         | H : ∃ c, _ |- _ => destruct H as (? & ? & ? & ?)
         end.
  do 9 eexists. unfold generateMeetingKey.
  cbn [segments_loop segment_loop].
  repeat match goal with
         | H : charAt chars _ = _ |- _ => rewrite H; clear H
         end.
  cbn. split; [f_equal; lia |].
  split; [repeat constructor; assumption |].
  repeat match goal with
         | H : (nat_of_ascii _ - 97)%nat = _ |- _ => rewrite H; clear H
         end.
  reflexivity.
Qed.

(** X18: a generated meeting key has eleven characters, a hyphen at
    positions 3 and 7 and a lower-case letter at every other position, and
    costs nine calls of [Math.random]. *)
Theorem meeting_key_format random n :
  Forall (λ k, (random k < 26)%nat) (seq n 9) →
  let '(key, n') := generateMeetingKey random n in
  String.length key = 11%nat ∧ n' = (n + 9)%nat ∧
  ∀ i c, String.get i key = Some c →
         if bool_decide (i = 3%nat ∨ i = 7%nat) then c = "-"%char
         else is_lower c = true.
Proof.
  intros Hall.
  destruct (key_shape random n Hall)
    as (c0 & c1 & c2 & c3 & c4 & c5 & c6 & c7 & c8 & -> & Hlow & _).
  split; [reflexivity |]. split; [reflexivity |].
  repeat (apply Forall_cons in Hlow as [? Hlow]).
  intros i c.
  do 11 (destruct i as [| i]; [simpl; intros [= <-]; done |]).
  simpl. done.
Qed.

Lemma meeting_key_format_witness :
  Forall (λ k, ((λ k, (7 * k) `mod` 26) k < 26)%nat) (seq 0 9) ∧
  let '(key, n') := generateMeetingKey (λ k, (7 * k) `mod` 26)%nat 0 in
  String.length key = 11%nat ∧ n' = (0 + 9)%nat ∧
  ∀ i c, String.get i key = Some c →
         if bool_decide (i = 3%nat ∨ i = 7%nat) then c = "-"%char
         else is_lower c = true.
Proof.
  split; [apply (bool_decide_unpack _); vm_compute; done |].
  apply (meeting_key_format (λ k, (7 * k) `mod` 26)%nat 0).
  apply (bool_decide_unpack _). vm_compute. done.
Defined.

(** X19: two generated keys are equal only if the nine draws behind them
    are equal, one by one: the key loses nothing of the draws. *)
Theorem meeting_key_injective random1 random2 n1 n2 :
  Forall (λ k, (random1 k < 26)%nat) (seq n1 9) →
  Forall (λ k, (random2 k < 26)%nat) (seq n2 9) →
  (generateMeetingKey random1 n1).1 = (generateMeetingKey random2 n2).1 →
  random1 <$> seq n1 9 = random2 <$> seq n2 9.
Proof.
  intros H1 H2.
  destruct (key_shape random1 n1 H1)
    as (a0 & a1 & a2 & a3 & a4 & a5 & a6 & a7 & a8 & -> & _ & <-).
  destruct (key_shape random2 n2 H2)
    as (b0 & b1 & b2 & b3 & b4 & b5 & b6 & b7 & b8 & -> & _ & <-).
  cbn [fst]. intros [=]. by subst.
Qed.

Lemma meeting_key_injective_witness :
  Forall (λ k, ((λ k, (7 * k) `mod` 26) k < 26)%nat) (seq 0 9) ∧
  Forall (λ k, ((λ k, (7 * (k - 4)) `mod` 26) k < 26)%nat) (seq 4 9) ∧
  (generateMeetingKey (λ k, (7 * k) `mod` 26)%nat 0).1 =
    (generateMeetingKey (λ k, (7 * (k - 4)) `mod` 26)%nat 4).1 ∧
  (λ k, (7 * k) `mod` 26)%nat <$> seq 0 9 =
    (λ k, (7 * (k - 4)) `mod` 26)%nat <$> seq 4 9.
Proof.
  split; [apply (bool_decide_unpack _); vm_compute; done |].
  split; [apply (bool_decide_unpack _); vm_compute; done |].
  split; [vm_compute; done |].
  apply (meeting_key_injective (λ k, (7 * k) `mod` 26)%nat
           (λ k, (7 * (k - 4)) `mod` 26)%nat 0 4).
  - apply (bool_decide_unpack _). vm_compute. done.
  - apply (bool_decide_unpack _). vm_compute. done.
  - vm_compute. done.
Defined.

(** *** The authentication middleware *)

Lemma string_app_cons (x : ascii) (a b : string) :
  String x a ++ b = String x (a ++ b).
Proof. reflexivity. Qed.

Lemma string_app_assoc (a b c : string) : (a ++ b) ++ c = a ++ (b ++ c).
Proof.
  induction a as [| x a IH]; [done |]. rewrite !string_app_cons. by f_equal.
Qed.

Lemma string_app_nil_r (a : string) : a ++ "" = a.
Proof.
  induction a as [| x a IH]; [done |]. rewrite string_app_cons. by f_equal.
Qed.

Lemma split_aux_no_sep sep (s cur : string) :
  without sep s = true → split_aux sep s cur = [cur ++ s].
Proof.
  revert cur. induction s as [| c s IH]; intros cur; cbn [without split_aux].
  - intros _. by rewrite string_app_nil_r.
  - case_bool_decide as Hc; [done |]. cbn [negb andb]. intros Hs.
    rewrite decide_False by done. rewrite IH by done.
    by rewrite string_app_assoc.
Qed.

Lemma split_aux_piece sep (a b cur : string) :
  without sep a = true →
  split_aux sep (a ++ String sep b) cur = (cur ++ a) :: split_aux sep b "".
Proof.
  revert cur. induction a as [| c a IH]; intros cur.
  - intros _. change ("" ++ String sep b) with (String sep b).
    cbn [split_aux]. rewrite decide_True by done. by rewrite string_app_nil_r.
  - cbn [without]. case_bool_decide as Hc; [done |]. cbn [negb andb]. intros Ha.
    rewrite string_app_cons. cbn [split_aux].
    rewrite decide_False by done. rewrite IH by done.
    by rewrite string_app_assoc.
Qed.

(** X20: the middleware and the client's header agree: for a stored token
    that is not empty and holds no space, the header [Bearer <token>] that
    the client builds makes the middleware verify exactly that token, and
    the outcome is 403 or the verified payload; without a stored token the
    client sends no header and the outcome is 401. *)
Theorem bearer_round_trip verify token :
  token ≠ "" → without " " token = true →
  authenticateToken verify (authorization (Some token)) =
    match verify token with
    | None => Status 403 "Invalid or expired token"
    | Some user => Next user
    end ∧
  authenticateToken verify (authorization None) =
    Status 401 "Authentication required".
Proof.
  intros Hne Hsp. split; [| done].
  unfold authorization. rewrite bool_decide_eq_false_2 by done.
  unfold authenticateToken. cbn [bool_decide]. rewrite bool_decide_eq_false_2 by done.
  unfold split.
  change ("Bearer " ++ token) with ("Bearer" ++ String " " token).
  rewrite split_aux_piece by done. rewrite split_aux_no_sep by done.
  simpl. by rewrite bool_decide_eq_false_2.
Qed.

Lemma bearer_round_trip_witness :
  "abc.def.ghi" ≠ "" ∧ without " " "abc.def.ghi" = true ∧
  (authenticateToken (λ t, if bool_decide (t = "abc.def.ghi") then Some (JStr "u")
                           else None)
     (authorization (Some "abc.def.ghi")) =
     match (λ t, if bool_decide (t = "abc.def.ghi") then Some (JStr "u") else None)
             "abc.def.ghi" with
     | None => Status 403 "Invalid or expired token"
     | Some user => Next user
     end ∧
   authenticateToken (λ t, if bool_decide (t = "abc.def.ghi") then Some (JStr "u")
                           else None)
     (authorization None) = Status 401 "Authentication required").
Proof.
  split; [done |]. split; [reflexivity |].
  apply (bearer_round_trip
           (λ t, if bool_decide (t = "abc.def.ghi") then Some (JStr "u") else None)
           "abc.def.ghi").
  - done.
  - reflexivity.
Defined.

(** X21: the middleware reads the second blank-separated piece of the
    header and nothing else: the scheme in front of it is not looked at,
    and whatever follows a second blank is ignored. *)
Theorem scheme_and_tail_ignored verify scheme token tail :
  without " " scheme = true → without " " token = true →
  authenticateToken verify (Some (scheme ++ " " ++ token ++ " " ++ tail)) =
  authenticateToken verify (Some ("Bearer " ++ token)).
Proof.
  intros Hs Ht.
  assert (∀ h t, h ≠ "" → split " " h !! 1%nat = Some t →
            authenticateToken verify (Some h) =
            if bool_decide (t = "") then Status 401 "Authentication required"
            else match verify t with
                 | None => Status 403 "Invalid or expired token"
                 | Some user => Next user
                 end) as Hauth.
  { intros h t Hh Hsplit. unfold authenticateToken.
    rewrite bool_decide_eq_false_2 by done. by rewrite Hsplit. }
  rewrite (Hauth _ token).
  - rewrite (Hauth ("Bearer " ++ token) token); [done | done |].
    unfold split. change ("Bearer " ++ token) with ("Bearer" ++ String " " token).
    rewrite split_aux_piece by done. by rewrite split_aux_no_sep.
  - destruct scheme; [done | discriminate].
  - unfold split. change (scheme ++ " " ++ token ++ " " ++ tail)
      with (scheme ++ String " " (token ++ String " " tail)).
    rewrite split_aux_piece by done. by rewrite split_aux_piece.
Qed.

Lemma scheme_and_tail_ignored_witness :
  without " " "Basic" = true ∧ without " " "tok" = true ∧
  authenticateToken (λ _, None) (Some ("Basic" ++ " " ++ "tok" ++ " " ++ "x y")) =
  authenticateToken (λ _, None) (Some ("Bearer " ++ "tok")).
Proof.
  split; [reflexivity |]. split; [reflexivity |].
  apply (scheme_and_tail_ignored (λ _, None) "Basic" "tok" "x y").
  - reflexivity.
  - reflexivity.
Defined.

End ServerFacts.

(** ** Properties of the client's session handling *)

Section AuthFacts.
Import AuthContext.

Implicit Types (s : State).

Lemma truthy_item_Some (v : option string) x :
  truthy_item v = Some x ↔ v = Some x ∧ x ≠ "".
Proof.
  unfold truthy_item. destruct v as [y |]; [| by split; [| intros []]].
  case_bool_decide as Hy.
  - split; [done |]. intros [[= ->] Hx]. done.
  - split; [by intros [= <-] | by intros [[= ->] _]].
Qed.

(** X22: whether or not the logout request goes through, after [logout]
    no token is stored and no user is signed in; the stored device id is
    kept; and a request is made only when a non-empty token was stored,
    carrying that token. *)
Theorem logout_always_clears succeeds s :
  storage (logout succeeds s) !! "token" = None ∧
  user (logout succeeds s) = None ∧
  storage (logout succeeds s) !! "deviceId" = storage s !! "deviceId" ∧
  requests (logout succeeds s) =
    match storage s !! "token" with
    | Some token =>
        if bool_decide (token = "") then requests s
        else (requests s ++ [PostLogout ("Bearer " ++ token)])%list
    | None => requests s
    end.
Proof.
  unfold logout. cbn [storage user requests].
  split; [by rewrite lookup_delete_eq |]. split; [done |].
  split; [by rewrite lookup_delete_ne |].
  unfold truthy_item. destruct (storage s !! "token") as [token |]; [| done].
  by case_bool_decide.
Qed.

(** X23: the device id is made once: when the first generated id is not
    empty, every later login, whatever happens in between to the session
    (a failed or successful login, a logout), sends that same id, and no
    later generated id is ever used. *)
Theorem device_id_is_stable uuid1 uuid2 e1 p1 e2 p2 reply1 reply2 succeeds s :
  uuid1 ≠ "" →
  let s1 := (login e1 p1 uuid1 reply1 s).1 in
  let s2 := logout succeeds s1 in
  let s3 := (login e2 p2 uuid2 reply2 s2).1 in
  ∃ id, id ≠ "" ∧
    last (requests s1) = Some (PostLogin e1 p1 id) ∧
    last (requests s3) = Some (PostLogin e2 p2 id) ∧
    storage s3 !! "deviceId" = Some id.
Proof.
  intros Hne s1 s2 s3.
  assert (∃ id, id ≠ "" ∧ last (requests s1) = Some (PostLogin e1 p1 id) ∧
                storage s1 !! "deviceId" = Some id) as (id & Hid & Hlast & Hst).
  { unfold s1, login, getOrCreateDeviceId.
    destruct (truthy_item (storage s !! "deviceId")) as [id |] eqn:Hitem.
    - apply truthy_item_Some in Hitem as [Hitem Hid]. exists id.
      destruct reply1 as [m | [tok u]]; cbn [fst requests storage];
        rewrite last_snoc, ?lookup_insert_ne by done; done.
    - exists uuid1.
      destruct reply1 as [m | [tok u]]; cbn [fst requests storage];
        rewrite last_snoc, ?(lookup_insert_ne _ "token") by done;
        rewrite lookup_insert_eq; done. }
  exists id. split; [done |]. split; [done |].
  assert (truthy_item (storage s2 !! "deviceId") = Some id) as Hitem.
  { apply truthy_item_Some. split; [| done].
    unfold s2, logout. cbn [storage]. by rewrite lookup_delete_ne. }
  unfold s3, login, getOrCreateDeviceId. rewrite Hitem.
  apply truthy_item_Some in Hitem as [Hst2 _].
  destruct reply2 as [m | [tok u]]; cbn [fst requests storage];
    rewrite last_snoc, ?lookup_insert_ne by done; done.
Qed.

Lemma device_id_is_stable_witness :
  "id-1" ≠ "" ∧
  let s := {| user := None; loading := true; storage := ∅; requests := [] |} in
  let s1 := (login "a@b" "pw" "id-1" (inl None) s).1 in
  let s2 := logout false s1 in
  let s3 := (login "a@b" "pw2" "id-2" (inr ("tok", JStr "u")) s2).1 in
  ∃ id, id ≠ "" ∧
    last (requests s1) = Some (PostLogin "a@b" "pw" id) ∧
    last (requests s3) = Some (PostLogin "a@b" "pw2" id) ∧
    storage s3 !! "deviceId" = Some id.
Proof.
  split; [done |].
  apply (device_id_is_stable "id-1" "id-2" "a@b" "pw" "a@b" "pw2" (inl None)
           (inr ("tok", JStr "u")) false
           {| user := None; loading := true; storage := ∅; requests := [] |}).
  done.
Defined.

(** X24: a login that fails leaves the session as it was: the signed-in
    user and the stored token are unchanged (a token stored before stays),
    [loading] is reset, and the error thrown carries the server's message,
    or [Failed to login] when there is none. *)
Theorem failed_login_keeps_session email password uuid message s :
  let r := login email password uuid (inl message) s in
  user r.1 = user s ∧
  storage r.1 !! "token" = storage s !! "token" ∧
  loading r.1 = false ∧
  r.2 = Some (match message with
              | Some m => if bool_decide (m = "") then "Failed to login" else m
              | None => "Failed to login"
              end).
Proof.
  unfold login, getOrCreateDeviceId.
  destruct (truthy_item (storage s !! "deviceId")); cbn [fst snd user storage loading];
    rewrite ?lookup_insert_ne by done;
    (repeat split; try done);
    unfold error_message, truthy_item; destruct message as [m |]; try done;
    by case_bool_decide.
Qed.

(** X25: the start-up check makes no request without a stored token, and
    drops a stored token that the server refuses; either way [loading]
    ends false, and the user is set only from a successful profile reply. *)
Theorem check_auth_status_outcomes profile s :
  let s' := checkAuthStatus profile s in
  loading s' = false ∧
  (truthy_item (storage s !! "token") = None →
   requests s' = requests s ∧ user s' = user s ∧ storage s' = storage s) ∧
  (∀ token, truthy_item (storage s !! "token") = Some token →
     requests s' = (requests s ++ [GetProfile ("Bearer " ++ token)])%list ∧
     match profile with
     | Some u => user s' = Some u ∧ storage s' = storage s
     | None => user s' = user s ∧ storage s' !! "token" = None
     end).
Proof.
  intros s'. unfold s', checkAuthStatus.
  destruct (truthy_item (storage s !! "token")) as [token |].
  - destruct profile as [u |]; cbn [loading requests user storage].
    + split; [done |]. split; [done |]. by intros t [= <-].
    + split; [done |]. split; [done |]. intros t [= <-].
      by rewrite lookup_delete_eq.
  - done.
Qed.

End AuthFacts.

(** ** Properties of [SocketService] *)

Section SocketServiceFacts.
Import Relay SocketService.

Implicit Types (s : State).

Lemma quiet_snoc (l : list Wire) w :
  quiet_after_close l →
  (∀ sk, Closed sk ∈ l → w ≠ Closed sk ∧ ∀ m, w ≠ Emitted sk m) →
  quiet_after_close (l ++ [w]).
Proof.
  intros Hq Hw l1 l2 sk Heq.
  destruct l2 as [| x l2 _] using rev_ind.
  - intros m. split; apply not_elem_of_nil.
  - rewrite app_comm_cons, app_assoc in Heq.
    apply app_inj_tail in Heq as [Heq ->].
    pose proof (Hq l1 l2 sk Heq) as Hold.
    assert (Closed sk ∈ l) as Hin.
    { rewrite Heq. apply elem_of_app. right. apply list_elem_of_here. }
    destruct (Hw sk Hin) as [Hw1 Hw2]. intros m.
    destruct (Hold m) as [He Hc]. split.
    + rewrite elem_of_app, list_elem_of_singleton. intros [? | Hx]; [done |].
      by apply (Hw2 m).
    + rewrite elem_of_app, list_elem_of_singleton. intros [? | Hx]; [done |].
      by apply Hw1.
Qed.

Lemma service_ok_call c s : service_ok s → service_ok (call c s).
Proof.
  intros Hok. pose proof Hok as (Hsock & Hem & Hcl & Hq).
  destruct c as [token | | m]; cbn [call].
  - unfold connect. destruct (socket s) as [sk |] eqn:Hs; cbn [fst]; [done |].
    split; [| split; [| split]]; cbn [socket created wire].
    + intros sk [= <-]. split; [lia |]. intros Hin%Hcl. lia.
    + intros sk m Hin%Hem. lia.
    + intros sk Hin%Hcl. lia.
    + done.
  - unfold disconnect. destruct (socket s) as [sk0 |] eqn:Hs; [| done].
    destruct (Hsock sk0 eq_refl) as [Hlt Hnc].
    split; [| split; [| split]]; cbn [socket created wire].
    + done.
    + intros sk m [Hin | Hin%list_elem_of_singleton]%elem_of_app; [eauto | done].
    + intros sk [Hin | Hin%list_elem_of_singleton]%elem_of_app; [eauto |].
      by injection Hin as ->.
    + apply quiet_snoc; [done |]. intros sk Hin. split; [| done].
      intros [= ->]. done.
  - unfold send. destruct (socket s) as [sk0 |] eqn:Hs; [| done].
    destruct (Hsock sk0 eq_refl) as [Hlt Hnc].
    split; [| split; [| split]]; cbn [socket created wire].
    + intros sk [= <-]. split; [done |].
      intros [Hin | Hin%list_elem_of_singleton]%elem_of_app; done.
    + intros sk m' [Hin | Hin%list_elem_of_singleton]%elem_of_app; [eauto |].
      by injection Hin as -> _.
    + intros sk [Hin | Hin%list_elem_of_singleton]%elem_of_app; [eauto | done].
    + apply quiet_snoc; [done |]. intros sk Hin. split; [done |].
      intros m' [= -> _]. done.
Qed.

(** X26: whatever sequence of [connect], [disconnect] and sending calls is
    made on the service, once a socket has been disconnected nothing more
    is emitted on it and it is not closed a second time. *)
Theorem nothing_after_disconnect cs :
  quiet_after_close (wire (calls cs initial)).
Proof.
  assert (∀ s0, service_ok s0 → service_ok (calls cs s0)) as Hrun.
  { unfold calls. induction cs as [| c cs IH]; intros s0 H0; [done |].
    cbn [foldl]. apply IH. by apply service_ok_call. }
  apply Hrun. split; [done |]. split; [| split].
  - intros sk m Hin. by apply not_elem_of_nil in Hin.
  - intros sk Hin. by apply not_elem_of_nil in Hin.
  - intros l1 l2 sk Heq. by destruct l1.
Qed.

(** X27: [connect] hands out the socket it holds. A second [connect]
    returns the same socket and leaves the service exactly as the first
    one left it: no new socket, no new handshake, so a token stored since
    is not presented. A socket is made, with the token of that call, only
    when none is held; after [disconnect] none is held and every sending
    method leaves the service as it is. *)
Theorem connect_reuses_and_send_needs_socket token1 token2 m s :
  connect token2 (connect token1 s).1 = connect token1 s ∧
  socket (connect token1 s).1 = Some (connect token1 s).2 ∧
  (∀ sk, socket s = Some sk → connect token1 s = (s, sk)) ∧
  (socket s = None →
     (connect token1 s).2 = created s ∧
     created (connect token1 s).1 = S (created s) ∧
     handshakes (connect token1 s).1 =
       (handshakes s ++ [(created s, token1)])%list ∧
     wire (connect token1 s).1 = wire s) ∧
  socket (disconnect s) = None ∧
  send m (disconnect s) = disconnect s.
Proof.
  unfold connect, send, disconnect.
  destruct (socket s) as [sk |] eqn:Hs; cbn [fst snd socket]; rewrite ?Hs;
    repeat split; try done.
  by intros sk' [= <-].
Qed.

End SocketServiceFacts.

(** ** Properties of the media toggles and of the route guards *)

Section ControlsFacts.
Import Client Controls.

Implicit Types (s : State).

Lemma enabled_twice (m : gmap nat bool) k id :
  default true
    (<[k := negb (default true (<[k := negb (default true (m !! k))]> m !! k))]>
       (<[k := negb (default true (m !! k))]> m) !! id)
  = default true (m !! id).
Proof.
  rewrite lookup_insert_eq. simpl. rewrite negb_involutive.
  rewrite insert_insert_eq, lookup_insert. case_decide; [by subst |]. done.
Qed.

Lemma head_filter_kind k (pre post : list Track) t :
  kind t = k → Forall (λ u, kind u ≠ k) pre →
  head (filter (λ u, kind u = k) (pre ++ t :: post)%list) = Some t.
Proof.
  intros Ht Hpre. rewrite filter_app.
  assert (filter (λ u, kind u = k) pre = []) as ->.
  { induction Hpre as [| u pre Hu _ IH]; [done |].
    by rewrite filter_cons_False. }
  by rewrite filter_cons_True.
Qed.

Lemma head_filter_none k (l : list Track) :
  Forall (λ u, kind u ≠ k) l → head (filter (λ u, kind u = k) l) = None.
Proof.
  intros Hl. induction Hl as [| u l Hu _ IH]; [done |].
  by rewrite filter_cons_False.
Qed.

(** X28: a toggle changes the [enabled] bit of the first track of its kind
    in the local stream and nothing else: the component state of the
    connections and of the socket is as it was, so nothing is sent to the
    relay; the flag of the other button and the [enabled] bit of every
    other track are as they were; the flag of its own button is the new
    bit. Without a stream, or without a track of that kind, the toggle
    does nothing. Two toggles in a row restore every track's bit. *)
Theorem toggles_are_local k s :
  let s' := toggle k s in
  room s' = room s ∧
  (∀ k', k' ≠ k → button k' s' = button k' s) ∧
  (∀ pre t post,
     localStream (room s) = Some (pre ++ t :: post)%list →
     kind t = k → Forall (λ u, kind u ≠ k) pre →
     track_enabled s' (track_id t) = negb (track_enabled s (track_id t)) ∧
     button k s' = track_enabled s' (track_id t) ∧
     ∀ id, id ≠ track_id t → track_enabled s' id = track_enabled s id) ∧
  (localStream (room s) = None → s' = s) ∧
  (∀ stream, localStream (room s) = Some stream →
     Forall (λ u, kind u ≠ k) stream → s' = s) ∧
  (∀ id, track_enabled (toggle k s') id = track_enabled s id).
Proof.
  intros s'. unfold s'. clear s'.
  split; [| split; [| split; [| split; [| split]]]].
  - destruct k; cbn [toggle]; unfold toggleAudio, toggleVideo;
      destruct (localStream (room s)) as [stream |]; try done;
      by destruct (head _).
  - intros k' Hk'. destruct k, k'; try done; cbn [toggle button];
      unfold toggleAudio, toggleVideo;
      destruct (localStream (room s)) as [stream |]; try done;
      by destruct (head _).
  - intros pre t post Hls Ht Hpre.
    pose proof (head_filter_kind k pre post t Ht Hpre) as Hhd.
    destruct k; cbn [toggle button];
      unfold toggleAudio, toggleVideo, getAudioTracks, getVideoTracks,
        MediaStream;
      rewrite Hls, Hhd; unfold track_enabled;
      cbn [enabled isAudioEnabled isVideoEnabled];
      rewrite lookup_insert_eq; (split; [done |]); (split; [done |]);
      intros id Hid; by rewrite lookup_insert_ne.
  - intros Hls. destruct k; cbn [toggle]; unfold toggleAudio, toggleVideo;
      by rewrite Hls.
  - intros stream Hls Hno. pose proof (head_filter_none k stream Hno) as Hhd.
    destruct k; cbn [toggle];
      unfold toggleAudio, toggleVideo, getAudioTracks, getVideoTracks,
        MediaStream;
      by rewrite Hls, Hhd.
  - intros id. destruct k; cbn [toggle];
      unfold toggleAudio, toggleVideo, track_enabled;
      destruct (localStream (room s)) as [stream |] eqn:Hls;
      cbn [room]; rewrite ?Hls; try done;
      destruct (head _) as [t |] eqn:Hhd;
      cbn [room enabled]; rewrite ?Hls, ?Hhd; try done;
      cbn [room enabled]; apply enabled_twice.
Qed.

End ControlsFacts.

Section AppFacts.
Import App.

(** X29: from any route of the table, following the redirects settles
    after at most two of them: while the session is loading on the
    spinner (or, from [/], after one redirect on it), and otherwise on a
    page; a signed-in user never settles on the login or register page and
    a visitor without a session settles on no other page. *)
Theorem routes_settle pattern user loading v :
  route pattern user loading = Some v →
  ∃ v', settle 2 pattern user loading = Some v' ∧
    match v' with
    | LoadingSpinner => loading = true
    | Page name =>
        loading = false ∧
        (is_Some user ↔ name ≠ "Login" ∧ name ≠ "Register")
    | Navigate _ => False
    end.
Proof.
  unfold route. intros Hv.
  repeat case_bool_decide; subst; try discriminate; clear Hv;
    destruct loading, user as [u |]; vm_compute; eexists;
    (split; [reflexivity |]); try done;
    (split; [done |]); split; try done;
    try (intros [? [=]]); try (by intros [? ?]); eauto.
Qed.

Lemma routes_settle_witness :
  route "/" None false = Some (Navigate "/dashboard") ∧
  ∃ v', settle 2 "/" None false = Some v' ∧
    match v' with
    | LoadingSpinner => false = true
    | Page name =>
        false = false ∧
        (is_Some (None : option jsval) ↔ name ≠ "Login" ∧ name ≠ "Register")
    | Navigate _ => False
    end.
Proof.
  split; [reflexivity |].
  apply (routes_settle "/" None false (Navigate "/dashboard")). reflexivity.
Defined.

End AppFacts.
